(** * Line analytics of the similarity viewer

    A shallow embedding of the computations of
    [src/components/plagiarism/SimilarityVisualization.tsx]: the string
    helpers and scorers local to [highlightMatches], the Levenshtein matrix,
    the per-line match records, the distribution buckets and the summary
    counts.

    Conventions of the embedding.
    - A string is the list of its UTF-16 code units ([N]); [length] is the
      [.length] of the source.
    - A number is an exact rational ([Q]).  Every number the modelled code
      computes is a small integer, a quotient of two of them, or such a
      quotient times 100, and is only ever compared with decimal constants
      or with another such quotient; the rounding of a quotient to a double
      is not modelled.
    - A computation returns [option]: [None] stands for the places where the
      source would leave the finite numbers or read something that is not
      there (a quotient by zero, a read of an absent matrix cell or row).
      The theorems show that the modelled functions always return [Some].
    - [String.prototype.toLowerCase] depends on the Unicode tables; it is a
      variable of the sections that need it, so that the theorems hold for
      any lower-casing, and [toLowerBasicLatin] is its restriction to strings
      of Basic Latin code units, used to run the definitions. *)

From Stdlib Require Import QArith Lqa.
From stdpp Require Import base option list gmap sets strings.

Abbreviation jsstring := (list N).

(** ** Numbers *)

Definition num (n : nat) : Q := inject_Z (Z.of_nat n).

(** [a / b]; [None] where the source obtains [NaN] or an infinity. *)
Definition divide (a b : Q) : option Q :=
  if Qeq_bool b 0 then None else Some (a / b)%Q.

(** [a > b] *)
Definition Qgtb (a b : Q) : bool := negb (Qle_bool a b).

(** [Math.min(a, b, c)] *)
Definition min3 (a b c : nat) : nat := a `min` (b `min` c).

(** ** Loops *)

(** [xs.forEach((x, index) => body)] over a state [s], and the counting
    [for] loops through [seq]. *)
Fixpoint forEachFrom {A St : Type} (body : St → A → nat → option St)
    (index : nat) (xs : list A) (s : St) : option St :=
  match xs with
  | [] => Some s
  | x :: xs' => s' ← body s x index; forEachFrom body (S index) xs' s'
  end.

Definition forEach {A St : Type} (body : St → A → nat → option St)
    (xs : list A) (s : St) : option St :=
  forEachFrom body 0 xs s.

(** [for (let i = from; i <= to; i++) body] *)
Definition forUpTo {St : Type} (from to : nat) (body : St → nat → option St)
    (s : St) : option St :=
  forEachFrom (λ s i _, body s i) 0 (seq from (S to - from)) s.

(** ** Strings *)

(** A Basic Latin literal as a string of code units. *)
Definition str (s : string) : jsstring :=
  map Ascii.N_of_ascii (String.list_ascii_of_string s).

(** The code units matched by [\s] and removed by [trim]: the WhiteSpace and
    LineTerminator code points of ECMAScript. *)
Definition isWhiteSpace (c : N) : bool :=
  match c with
  | 9 | 10 | 11 | 12 | 13 | 32 | 160 | 5760 | 8232 | 8233 | 8239 | 8287
  | 12288 | 65279 => true
  | _ => (8192 <=? c) && (c <=? 8202)
  end%N.

Definition SPACE : N := 32%N.
Definition LF : N := 10%N.

Fixpoint trimStart (s : jsstring) : jsstring :=
  match s with
  | [] => []
  | c :: s' => if isWhiteSpace c then trimStart s' else s
  end.

Definition trimEnd (s : jsstring) : jsstring :=
  reverse (trimStart (reverse s)).

Definition trim (s : jsstring) : jsstring := trimEnd (trimStart s).

(** [s.split(sep)] for a separator of one code unit. *)
Fixpoint splitFrom (sep : N) (field : jsstring) (s : jsstring) : list jsstring :=
  match s with
  | [] => [field]
  | c :: s' =>
      if (c =? sep)%N then field :: splitFrom sep [] s'
      else splitFrom sep (field ++ [c]) s'
  end.

Definition splitLines (s : jsstring) : list jsstring := splitFrom LF [] s.

(** [s.split(/\s+/)]: the fields between maximal runs of white space. *)
Fixpoint splitWhiteSpaceFrom (field : jsstring) (inRun : bool) (s : jsstring)
    : list jsstring :=
  match s with
  | [] => [field]
  | c :: s' =>
      if isWhiteSpace c then
        if inRun then splitWhiteSpaceFrom [] true s'
        else field :: splitWhiteSpaceFrom [] true s'
      else splitWhiteSpaceFrom (field ++ [c]) false s'
  end.

Definition splitWhiteSpace (s : jsstring) : list jsstring :=
  splitWhiteSpaceFrom [] false s.

(** [s.replace(/\s+/g, ' ')] *)
Fixpoint collapseWhiteSpaceFrom (inRun : bool) (s : jsstring) : jsstring :=
  match s with
  | [] => []
  | c :: s' =>
      if isWhiteSpace c then
        if inRun then collapseWhiteSpaceFrom true s'
        else SPACE :: collapseWhiteSpaceFrom true s'
      else c :: collapseWhiteSpaceFrom false s'
  end.

Definition collapseWhiteSpace (s : jsstring) : jsstring :=
  collapseWhiteSpaceFrom false s.

(** [a-z0-9\s] *)
Definition isTokenChar (c : N) : bool :=
  ((97 <=? c) && (c <=? 122) || (48 <=? c) && (c <=? 57))%N || isWhiteSpace c.

(** [s.replace(/[^a-z0-9\s]/g, ' ')] *)
Definition blankSpecialChars (s : jsstring) : jsstring :=
  map (λ c, if isTokenChar c then c else SPACE) s.

Fixpoint startsWith (s t : jsstring) {struct t} : bool :=
  match t, s with
  | [], _ => true
  | _ :: _, [] => false
  | d :: t', c :: s' => (c =? d)%N && startsWith s' t'
  end.

(** [s.includes(t)] *)
Fixpoint includes (s t : jsstring) : bool :=
  startsWith s t ||
  match s with
  | [] => false
  | _ :: s' => includes s' t
  end.

(** [s.charAt(i)]: a string of one code unit, or the empty string. *)
Definition charAt (s : jsstring) (i : nat) : jsstring := take 1 (drop i s).

(** [toLowerCase] on strings of Basic Latin code units. *)
Definition toLowerBasicLatin (s : jsstring) : jsstring :=
  map (λ c, if ((65 <=? c) && (c <=? 90))%N then (c + 32)%N else c) s.

(** ** The Levenshtein matrix *)

(** [number[][]]: an array is a finite map from indexes to elements, so that a
    write extends it and a read of an absent index is [None]. *)
Definition cell (matrix : gmap nat (gmap nat nat)) (i j : nat) : option nat :=
  row ← matrix !! i; row !! j.

(** [matrix[i][j] = v]; the row must exist. *)
Definition setCell (matrix : gmap nat (gmap nat nat)) (i j v : nat)
    : option (gmap nat (gmap nat nat)) :=
  row ← matrix !! i; Some (<[i := <[j := v]> row]> matrix).

Definition levenshteinCell (str1 str2 : jsstring)
    (matrix : gmap nat (gmap nat nat)) (i j : nat)
    : option (gmap nat (gmap nat nat)) :=
  if decide (charAt str2 (i - 1) = charAt str1 (j - 1)) then
    d ← cell matrix (i - 1) (j - 1);
    setCell matrix i j d
  else
    d ← cell matrix (i - 1) (j - 1);
    l ← cell matrix i (j - 1);
    u ← cell matrix (i - 1) j;
    setCell matrix i j (min3 (d + 1) (l + 1) (u + 1)).

Definition levenshteinDistance (str1 str2 : jsstring) : option nat :=
  let matrix : gmap nat (gmap nat nat) := ∅ in
  matrix ← forUpTo 0 (length str2)
              (λ matrix i, Some (<[i := {[0 := i]}]> matrix)) matrix;
  matrix ← forUpTo 0 (length str1)
              (λ matrix j, setCell matrix 0 j j) matrix;
  matrix ← forUpTo 1 (length str2)
              (λ matrix i,
                 forUpTo 1 (length str1)
                   (λ matrix j, levenshteinCell str1 str2 matrix i j) matrix)
              matrix;
  cell matrix (length str2) (length str1).

Definition calculateLineSimilarity (str1 str2 : jsstring) : option Q :=
  let longer := if length str2 <? length str1 then str1 else str2 in
  let shorter := if length str2 <? length str1 then str2 else str1 in
  if length longer =? 0 then Some 1%Q
  else
    editDistance ← levenshteinDistance longer shorter;
    divide (num (length longer) - num editDistance) (num (length longer)).

(** ** Line-match records *)

Record LineMatch : Type := {
  line : nat;
  similarity : Q;
  matched : bool
}.

(** The body of [lines2.forEach] for one line of the reference submission;
    the state is [(maxSimilarity, hasMatch)]. *)
Definition compareWithLine (trimmed1 : jsstring) (st : Q * bool)
    (line2 : jsstring) (_ : nat) : option (Q * bool) :=
  let '(maxSimilarity, hasMatch) := st in
  let trimmed2 := trim line2 in
  if length trimmed2 =? 0 then Some (maxSimilarity, hasMatch)
  else
    similarity ← calculateLineSimilarity trimmed1 trimmed2;
    Some (if Qgtb similarity maxSimilarity then similarity else maxSimilarity,
          if Qle_bool 0.8 similarity then true else hasMatch).

(** The body of [lines1.forEach]. *)
Definition matchLine (lines2 : list jsstring) (matchData : list LineMatch)
    (line1 : jsstring) (index : nat) : option (list LineMatch) :=
  let trimmed1 := trim line1 in
  if length trimmed1 =? 0 then
    Some (matchData ++
          [{| line := index + 1; similarity := 0; matched := false |}])
  else
    '(maxSimilarity, hasMatch) ←
       forEach (compareWithLine trimmed1) lines2 (0%Q, false);
    Some (matchData ++
          [{| line := index + 1; similarity := maxSimilarity;
              matched := hasMatch |}]).

Definition calculateLineMatchData (content1 content2 : jsstring)
    : option (list LineMatch) :=
  let lines1 := splitLines content1 in
  let lines2 := splitLines content2 in
  forEach (matchLine lines2) lines1 [].

(** ** Distribution and summary *)

Record Ranges : Type := {
  exact : nat;
  high : nat;
  medium : nat;
  low : nat;
  none : nat
}.

Definition countLine (ranges : Ranges) (d : LineMatch) : Ranges :=
  let 'Build_Ranges e h m l n := ranges in
  if Qle_bool 0.9 (similarity d) then Build_Ranges (e + 1) h m l n
  else if Qle_bool 0.7 (similarity d) then Build_Ranges e (h + 1) m l n
  else if Qle_bool 0.4 (similarity d) then Build_Ranges e h (m + 1) l n
  else if Qgtb (similarity d) 0 then Build_Ranges e h m (l + 1) n
  else Build_Ranges e h m l (n + 1).

(** The [matchData.forEach] of [calculateSimilarityDistribution]. *)
Definition distributionOf (matchData : list LineMatch) : Ranges :=
  foldl countLine (Build_Ranges 0 0 0 0 0) matchData.

Definition calculateSimilarityDistribution (content1 content2 : jsstring)
    : option Ranges :=
  matchData ← calculateLineMatchData content1 content2;
  Some (distributionOf matchData).

Definition totalLines (lineMatchData : list LineMatch) : nat :=
  length lineMatchData.

Definition matchedLines (lineMatchData : list LineMatch) : nat :=
  length (filter (λ d, matched d = true) lineMatchData).

Definition matchPercentage (lineMatchData : list LineMatch) : option Q :=
  if 0 <? totalLines lineMatchData then
    q ← divide (num (matchedLines lineMatchData)) (num (totalLines lineMatchData));
    Some (q * 100)%Q
  else Some 0%Q.

(** [(distribution.exact / totalLines * 100)] and its four siblings in the
    rendered bars, as the exact quotient: the source rounds the quotient and
    the product to doubles. *)
Definition bucketPercentage (count total : nat) : option Q :=
  q ← divide (num count) (num total); Some (q * 100)%Q.

(** ** The buckets, in the words of the specification *)

Inductive Bucket : Type := Exact | High | Medium | Low | NoSimilarity.

Definition inBucket (b : Bucket) (x : Q) : Prop :=
  match b with
  | Exact => (0.9 <= x)%Q ∧ (x <= 1)%Q
  | High => (0.7 <= x)%Q ∧ (x < 0.9)%Q
  | Medium => (0.4 <= x)%Q ∧ (x < 0.7)%Q
  | Low => (0 < x)%Q ∧ (x < 0.4)%Q
  | NoSimilarity => (x == 0)%Q
  end.

Definition bucketCount (b : Bucket) (ranges : Ranges) : nat :=
  match b with
  | Exact => exact ranges
  | High => high ranges
  | Medium => medium ranges
  | Low => low ranges
  | NoSimilarity => none ranges
  end.

#[global] Instance Qle_decision (x y : Q) : Decision (x <= y)%Q.
Proof. destruct (Qlt_le_dec y x); [right; by apply Qlt_not_le|by left]. Defined.

#[global] Instance Qlt_decision (x y : Q) : Decision (x < y)%Q.
Proof. destruct (Qlt_le_dec x y); [by left|right; by apply Qle_not_lt]. Defined.

#[global] Instance Qeq_decision (x y : Q) : Decision (x == y)%Q.
Proof. apply Qeq_dec. Defined.

#[global] Instance inBucket_decision (b : Bucket) (x : Q) : Decision (inBucket b x).
Proof. destruct b; simpl; apply _. Defined.

(** The number of records whose similarity lies in the range of [b]. *)
Definition inBucketCount (b : Bucket) (matchData : list LineMatch) : nat :=
  length (filter (λ d, inBucket b (similarity d)) matchData).

(** ** The state of the comparison of one line *)

(** [(maxSimilarity, hasMatch)] after the lines [done] of the other
    submission were compared with [trimmed1]. *)
Definition compared (trimmed1 : jsstring) (done : list jsstring)
    (st : Q * bool) : Prop :=
  (0 <= st.1)%Q ∧
  (∀ line2 q, line2 ∈ done → trim line2 ≠ [] →
     calculateLineSimilarity trimmed1 (trim line2) = Some q → (q <= st.1)%Q) ∧
  ((∃ line2 q, line2 ∈ done ∧ trim line2 ≠ [] ∧
      calculateLineSimilarity trimmed1 (trim line2) = Some q ∧ (q == st.1)%Q) ∨
   ((∀ line2, line2 ∈ done → trim line2 = []) ∧ (st.1 == 0)%Q)) ∧
  (st.2 = true ↔
     ∃ line2 q, line2 ∈ done ∧ trim line2 ≠ [] ∧
       calculateLineSimilarity trimmed1 (trim line2) = Some q ∧ (0.8 <= q)%Q).

(** ** Dynamic threshold *)

Definition dynamicThreshold (overallScore : Q) : Q :=
  if Qle_bool 0.8 overallScore then 0.20%Q
  else if Qle_bool 0.6 overallScore then 0.30%Q
  else if Qle_bool 0.4 overallScore then 0.40%Q
  else 0.50%Q.

(** ** Token sets *)

Definition calculateTokenSimilarity (tokens1 tokens2 : list jsstring) : option Q :=
  let set1 : gset jsstring := list_to_set tokens1 in
  let set2 : gset jsstring := list_to_set tokens2 in
  let intersection : gset jsstring :=
    list_to_set (filter (λ x, x ∈ set2) (elements set1)) in
  let union : gset jsstring := list_to_set (elements set1 ++ elements set2) in
  if 0 <? size union then divide (num (size intersection)) (num (size union))
  else Some 0%Q.

(** ** Edit distance, in the words of the specification *)

(** One insertion, deletion or substitution of a single code unit. *)
Inductive edit_step : jsstring → jsstring → Prop :=
  | edit_insert pre c post : edit_step (pre ++ post) (pre ++ c :: post)
  | edit_delete pre c post : edit_step (pre ++ c :: post) (pre ++ post)
  | edit_substitute pre c d post : edit_step (pre ++ c :: post) (pre ++ d :: post).

(** [edits n s t]: [n] operations transform [s] into [t]. *)
Inductive edits : nat → jsstring → jsstring → Prop :=
  | edits_done s : edits 0 s s
  | edits_step n s u t : edit_step s u → edits n u t → edits (S n) s t.

(** [d] is the minimum number of operations that transform [s] into [t]. *)
Definition is_edit_distance (s t : jsstring) (d : nat) : Prop :=
  edits d s t ∧ ∀ n, edits n s t → d ≤ n.

(** The recurrence that the matrix tabulates: the entry for two strings in
    terms of the entries for the strings without their first code unit. *)
Fixpoint lev (s t : jsstring) {struct s} : nat :=
  match s with
  | [] => length t
  | a :: s' =>
      (fix lev_row (t : jsstring) : nat :=
         match t with
         | [] => S (length s')
         | b :: t' =>
             if decide (a = b) then lev s' t'
             else min3 (lev s' t' + 1) (lev_row t' + 1) (lev s' (b :: t') + 1)
         end) t
  end.

(** The entry that belongs at row [i] and column [j] of the matrix of
    [levenshteinDistance str1 str2]. *)
Definition tableEntry (str1 str2 : jsstring) (i j : nat) : nat :=
  lev (reverse (take i str2)) (reverse (take j str1)).

(** Every row exists, and the border and the entries before [(I, J)] in
    the order of the loops are in place. *)
Definition tableFilled (str1 str2 : jsstring) (I J : nat)
    (matrix : gmap nat (gmap nat nat)) : Prop :=
  (∀ i, i ≤ length str2 → is_Some (matrix !! i)) ∧
  ∀ i j, i ≤ length str2 → j ≤ length str1 →
         i = 0 ∨ j = 0 ∨ i < I ∨ (i = I ∧ j < J) →
         cell matrix i j = Some (tableEntry str1 str2 i j).

(** [s] contains [t] as a substring. *)
Definition contains (s t : jsstring) : Prop := ∃ pre post, s = pre ++ t ++ post.

(** ** Highlighting *)

(** The fields of a matched segment that the viewer reads. *)
Record MatchedSegment : Type := {
  text1 : jsstring;
  text2 : jsstring
}.

Section Highlighting.

Variable toLowerCase : jsstring → jsstring.

Definition normalize (s : jsstring) : jsstring :=
  toLowerCase (collapseWhiteSpace (trim s)).

Definition tokenize (s : jsstring) : list jsstring :=
  filter (λ token, 2 < length token)
         (splitWhiteSpace (blankSpecialChars (toLowerCase s))).

Definition calculateExactSimilarity (str1 str2 : jsstring) : option Q :=
  let norm1 := normalize str1 in
  let norm2 := normalize str2 in
  if decide (norm1 = norm2) then Some 1%Q
  else if includes norm1 norm2 || includes norm2 norm1 then
    divide (num (length norm1 `min` length norm2))
           (num (length norm1 `max` length norm2))
  else Some 0%Q.

(** STEP 1.  The [for (const otherLine of otherLines)] loop of one line,
    which stops at the first match: whether the line is added. *)
Fixpoint findDirectMatch (trimmedLine : jsstring) (otherLines : list jsstring)
    : option bool :=
  match otherLines with
  | [] => Some false
  | otherLine :: rest =>
      let trimmedOther := trim otherLine in
      if length trimmedOther =? 0 then findDirectMatch trimmedLine rest
      else
        exactSim ← calculateExactSimilarity trimmedLine trimmedOther;
        if Qle_bool 0.80 exactSim then Some true
        else findDirectMatch trimmedLine rest
  end.

(** The body of the first [lines.forEach]. *)
Definition directMatchLine (otherLines : list jsstring)
    (plagiarizedLines : gset nat) (line : jsstring) (lineIndex : nat)
    : option (gset nat) :=
  let trimmedLine := trim line in
  if length trimmedLine =? 0 then Some plagiarizedLines
  else
    found ← findDirectMatch trimmedLine otherLines;
    Some (if found : bool then {[lineIndex]} ∪ plagiarizedLines
          else plagiarizedLines).

Definition directLineMatching (lines otherLines : list jsstring)
    : option (gset nat) :=
  forEach (directMatchLine otherLines) lines ∅.

(** STEP 2.  The body of the inner [lines.forEach]. *)
Definition tokenMatchLine (threshold : Q) (matchTokens : list jsstring)
    (plagiarizedLines : gset nat) (line : jsstring) (lineIndex : nat)
    : option (gset nat) :=
  let trimmedLine := trim line in
  if length trimmedLine =? 0 then Some plagiarizedLines
  else
    let lineTokens := tokenize trimmedLine in
    if length lineTokens =? 0 then Some plagiarizedLines
    else
      similarity ← calculateTokenSimilarity lineTokens matchTokens;
      Some (if Qle_bool threshold similarity then {[lineIndex]} ∪ plagiarizedLines
            else plagiarizedLines).

(** The body of [segments.forEach]. *)
Definition tokenMatchSegment (isFirst : bool) (threshold : Q)
    (lines : list jsstring) (plagiarizedLines : gset nat)
    (segment : MatchedSegment) (_ : nat) : option (gset nat) :=
  let matchedText := if isFirst then text1 segment else text2 segment in
  if (length matchedText =? 0) || (length (trim matchedText) =? 0)
  then Some plagiarizedLines
  else
    let matchTokens := tokenize matchedText in
    if length matchTokens =? 0 then Some plagiarizedLines
    else forEach (tokenMatchLine threshold matchTokens) lines plagiarizedLines.

(** [highlightMatches], as the set of the indexes of the lines it renders
    highlighted. *)
Definition highlightMatches (overallScore : Q) (content1 content2 : jsstring)
    (text : jsstring) (segments : list MatchedSegment) (isFirst : bool)
    : option (gset nat) :=
  if (length segments =? 0) || (length text =? 0) then Some ∅
  else
    let threshold := dynamicThreshold overallScore in
    let lines := splitLines text in
    let otherText := if isFirst then content2 else content1 in
    let otherLines := if length otherText =? 0 then [] else splitLines otherText in
    plagiarizedLines ← directLineMatching lines otherLines;
    forEach (tokenMatchSegment isFirst threshold lines) segments plagiarizedLines.

(** The Jaccard score of two texts: [calculateTokenSimilarity] of their
    tokenizations, as STEP 2 applies it to a line and a matched text. *)
Definition jaccard (A B : jsstring) : option Q :=
  calculateTokenSimilarity (tokenize A) (tokenize B).

End Highlighting.

(** ** What is highlighted, in words *)

(** [line] is not blank and a line of [otherLines] that is not blank has an
    exact-or-containment similarity of at least 0.80 with it. *)
Definition directlyMatched (toLowerCase : jsstring → jsstring)
    (otherLines : list jsstring) (line : jsstring) : Prop :=
  trim line ≠ [] ∧
  ∃ otherLine exactSim,
    otherLine ∈ otherLines ∧ trim otherLine ≠ [] ∧
    calculateExactSimilarity toLowerCase (trim line) (trim otherLine)
      = Some exactSim ∧
    (0.80 <= exactSim)%Q.

(** [line] and the text [matchedText] of a segment both have tokens, and
    their Jaccard score is at least [threshold]. *)
Definition tokenMatched (toLowerCase : jsstring → jsstring) (threshold : Q)
    (matchedText : jsstring) (line : jsstring) : Prop :=
  trim matchedText ≠ [] ∧ tokenize toLowerCase matchedText ≠ [] ∧
  trim line ≠ [] ∧ tokenize toLowerCase (trim line) ≠ [] ∧
  ∃ sim,
    calculateTokenSimilarity (tokenize toLowerCase (trim line))
                             (tokenize toLowerCase matchedText) = Some sim ∧
    (threshold <= sim)%Q.

(** ** Rendering *)

(** [totalLines - matchedLines], the number on the card of the unique
    lines. *)
Definition uniqueLines (lineMatchData : list LineMatch) : Z :=
  Z.of_nat (totalLines lineMatchData) - Z.of_nat (matchedLines lineMatchData).

(** The colour class of the block of one record in the heatmap. *)
Definition heatmapColor (data : LineMatch) : string :=
  if Qle_bool 0.9 (similarity data) then "bg-red-600"
  else if Qle_bool 0.7 (similarity data) then "bg-orange-500"
  else if Qle_bool 0.4 (similarity data) then "bg-yellow-500"
  else if Qgtb (similarity data) 0 then "bg-blue-400"
  else "bg-green-500".

(** The colours of the [lineMatchData.map] of the heatmap. *)
Definition heatmap (lineMatchData : list LineMatch) : list string :=
  map heatmapColor lineMatchData.

(** One point [(x, y)] of the polyline of the trend graph, in percent; [x]
    is [None] where the source obtains [NaN]. *)
Definition trendPoint (lineMatchData : list LineMatch) (index : nat)
    (data : LineMatch) : option Q * Q :=
  (q ← divide (num index) (num (length lineMatchData) - 1); Some (q * 100)%Q,
   (100 - similarity data * 100)%Q).

Definition trendPoints (lineMatchData : list LineMatch) : list (option Q * Q) :=
  imap (trendPoint lineMatchData) lineMatchData.

(** The text of one rendered line of [highlightMatches]: the line, and a
    line feed after every line but the last. *)
Definition renderedLine (lines : list jsstring) (lineIndex : nat)
    (line : jsstring) : jsstring :=
  line ++ (if lineIndex <? length lines - 1 then [LF] else []).

(** The text of the [lines.map] that [highlightMatches] returns. *)
Definition renderedText (lines : list jsstring) : jsstring :=
  concat (imap (renderedLine lines) lines).

(** ** Sample inputs *)

Definition fiveLines : jsstring :=
  str "def add(a, b):" ++ [LF] ++ str "    total = a + b" ++ [LF] ++
  str "    print(total)" ++ [LF] ++ str "    return total" ++ [LF] ++
  str "add(1, 2)".

Definition threeLines : jsstring :=
  str "ab" ++ [LF] ++ str "  " ++ [LF] ++ str "hello".

Definition twoLines : jsstring := str "hello" ++ [LF] ++ str "ab c".

Definition sampleRecords : list LineMatch :=
  [ {| line := 1; similarity := 0.95; matched := true |};
    {| line := 2; similarity := 0.5; matched := false |};
    {| line := 3; similarity := 0; matched := false |} ].

Definition sampleSegments : list MatchedSegment :=
  [ {| text1 := str "total = price"; text2 := str "total = cost" |} ].

Definition indentedLines : jsstring :=
  str "  ab  " ++ [LF] ++ [LF] ++ str "    hello".

(** * Proofs *)

(** ** The recurrence *)

Lemma lev_nil_r (s : jsstring) : lev s [] = length s.
Proof. by destruct s. Qed.

Lemma lev_cons (a b : N) (s t : jsstring) :
  lev (a :: s) (b :: t) =
    if decide (a = b) then lev s t
    else min3 (lev s t + 1) (lev (a :: s) t + 1) (lev s (b :: t) + 1).
Proof. reflexivity. Qed.

Lemma lev_refl (s : jsstring) : lev s s = 0.
Proof.
  induction s as [|a s IH]; [done|].
  rewrite lev_cons. by case_decide.
Qed.

Lemma lev_le_max (s t : jsstring) : lev s t ≤ length s `max` length t.
Proof.
  revert t. induction s as [|a s IHs]; intros t; [simpl; lia|].
  induction t as [|b t IHt]; [rewrite lev_nil_r; lia|].
  rewrite lev_cons. specialize (IHs t). unfold min3.
  case_decide; simpl in *; lia.
Qed.

(** Neighbouring entries of the table differ by at most one. *)
Lemma lev_adjacent (n : nat) (s t : jsstring) (a : N) :
  length s + length t ≤ n →
  lev (a :: s) t ≤ S (lev s t) ∧ lev s t ≤ S (lev (a :: s) t) ∧
  lev s (a :: t) ≤ S (lev s t) ∧ lev s t ≤ S (lev s (a :: t)).
Proof.
  revert s t a. induction n as [|n IH]; intros s t a Hn.
  - destruct s, t; simpl in Hn; try lia. simpl. lia.
  - assert (Ht : ∀ b t', t = b :: t' →
      lev (a :: s) t ≤ S (lev s t) ∧ lev s t ≤ S (lev (a :: s) t)).
    { intros b t' ->. simpl in Hn.
      pose proof (IH s t' a ltac:(lia)) as (_ & Ha2 & _ & _).
      pose proof (IH s t' b ltac:(lia)) as (_ & _ & Hb3 & Hb4).
      rewrite (lev_cons a b). unfold min3. case_decide; lia. }
    assert (Hs : ∀ b s', s = b :: s' →
      lev s (a :: t) ≤ S (lev s t) ∧ lev s t ≤ S (lev s (a :: t))).
    { intros b s' ->. simpl in Hn.
      pose proof (IH s' t a ltac:(lia)) as (_ & _ & _ & Ha4).
      pose proof (IH s' t b ltac:(lia)) as (Hb1 & Hb2 & _ & _).
      rewrite (lev_cons b a). unfold min3. case_decide; lia. }
    destruct t as [|b t'], s as [|b' s'].
    + simpl. lia.
    + specialize (Hs _ _ eq_refl). rewrite !lev_nil_r in *. simpl in *. lia.
    + specialize (Ht _ _ eq_refl). simpl in *. lia.
    + specialize (Ht _ _ eq_refl). specialize (Hs _ _ eq_refl). lia.
Qed.

Lemma lev_cons_l_le (a : N) (s t : jsstring) : lev (a :: s) t ≤ S (lev s t).
Proof. by eapply lev_adjacent. Qed.

Lemma lev_cons_l_ge (a : N) (s t : jsstring) : lev s t ≤ S (lev (a :: s) t).
Proof. by eapply lev_adjacent. Qed.

Lemma lev_cons_r_ge (a : N) (s t : jsstring) : lev s t ≤ S (lev s (a :: t)).
Proof. by eapply lev_adjacent. Qed.

(** Changing the first code unit moves the entry by at most one. *)
Lemma lev_substitute_head (c d : N) (s t : jsstring) :
  lev (c :: s) t ≤ S (lev (d :: s) t).
Proof.
  induction t as [|b t IH]; [simpl; lia|].
  rewrite !lev_cons. unfold min3.
  pose proof (lev_cons_l_ge d s t). pose proof (lev_cons_r_ge b s t).
  repeat case_decide; lia.
Qed.

(** A bound on the whole row is kept under a common first code unit. *)
Lemma lev_lipschitz_cons (a : N) (s u : jsstring) :
  (∀ t, lev s t ≤ S (lev u t)) → ∀ t, lev (a :: s) t ≤ S (lev (a :: u) t).
Proof.
  intros H t. induction t as [|b t IH].
  - specialize (H []). rewrite !lev_nil_r in *. simpl. lia.
  - rewrite !lev_cons. unfold min3.
    pose proof (H t). pose proof (H (b :: t)). case_decide; lia.
Qed.

Lemma lev_edit_step (s u t : jsstring) :
  edit_step s u → lev s t ≤ S (lev u t).
Proof.
  intros Hstep. revert t.
  destruct Hstep as [pre c post|pre c post|pre c d post];
    induction pre as [|a pre IH]; simpl;
    try (by apply lev_lipschitz_cons); intros t.
  - apply lev_cons_l_ge.
  - apply lev_cons_l_le.
  - apply lev_substitute_head.
Qed.

(** ** Edit scripts *)

Lemma edit_step_cons (a : N) (s u : jsstring) :
  edit_step s u → edit_step (a :: s) (a :: u).
Proof.
  intros [pre c post|pre c post|pre c d post].
  - apply (edit_insert (a :: pre)).
  - apply (edit_delete (a :: pre)).
  - apply (edit_substitute (a :: pre)).
Qed.

Lemma edit_step_sym (s u : jsstring) : edit_step s u → edit_step u s.
Proof. intros []; constructor. Qed.

Lemma edit_step_reverse (s u : jsstring) :
  edit_step s u → edit_step (reverse s) (reverse u).
Proof.
  intros [pre c post|pre c post|pre c d post];
    rewrite !reverse_app, ?reverse_cons, <-?(assoc_L (++)); simpl;
    constructor.
Qed.

Lemma edits_cons (a : N) (n : nat) (s t : jsstring) :
  edits n s t → edits n (a :: s) (a :: t).
Proof.
  induction 1 as [|n s u t Hstep _ IH]; [constructor|].
  eapply edits_step; [by apply edit_step_cons|done].
Qed.

Lemma edits_snoc (n : nat) (s u t : jsstring) :
  edits n s u → edit_step u t → edits (S n) s t.
Proof.
  induction 1 as [|n s v u Hstep _ IH]; intros Hlast.
  - eapply edits_step; [done|constructor].
  - eapply edits_step; [done|by apply IH].
Qed.

Lemma edits_sym (n : nat) (s t : jsstring) : edits n s t → edits n t s.
Proof.
  induction 1 as [|n s u t Hstep _ IH]; [constructor|].
  eapply edits_snoc; [done|by apply edit_step_sym].
Qed.

Lemma edits_reverse (n : nat) (s t : jsstring) :
  edits n s t → edits n (reverse s) (reverse t).
Proof.
  induction 1 as [|n s u t Hstep _ IH]; [constructor|].
  eapply edits_step; [by apply edit_step_reverse|done].
Qed.

Lemma edits_from_nil (t : jsstring) : edits (length t) [] t.
Proof.
  induction t as [|b t IH]; [constructor|]. simpl.
  eapply edits_step; [apply (edit_insert [] b [])|by apply edits_cons].
Qed.

Lemma edits_to_nil (s : jsstring) : edits (length s) s [].
Proof.
  induction s as [|a s IH]; [constructor|]. simpl.
  eapply edits_step; [apply (edit_delete [] a s)|done].
Qed.

(** The recurrence is reached by a script ... *)
Lemma lev_edits (s t : jsstring) : edits (lev s t) s t.
Proof.
  revert t. induction s as [|a s IHs]; intros t; [apply edits_from_nil|].
  induction t as [|b t IHt]; [apply (edits_to_nil (a :: s))|].
  rewrite lev_cons. case_decide as Hab.
  - subst b. by apply edits_cons.
  - unfold min3.
    destruct (Nat.min_spec (lev s t + 1)
                ((lev (a :: s) t + 1) `min` (lev s (b :: t) + 1)))
      as [[_ ->]|[_ ->]];
      [|destruct (Nat.min_spec (lev (a :: s) t + 1) (lev s (b :: t) + 1))
          as [[_ ->]|[_ ->]]];
      rewrite Nat.add_1_r.
    + eapply edits_step; [apply (edit_substitute [] a b s)|by apply edits_cons].
    + eapply edits_step; [apply (edit_insert [] b (a :: s))|by apply edits_cons].
    + eapply edits_step; [apply (edit_delete [] a s)|done].
Qed.

(** ... and no script is shorter. *)
Lemma lev_minimal (n : nat) (s t : jsstring) : edits n s t → lev s t ≤ n.
Proof.
  induction 1 as [|n s u t Hstep _ IH]; [by rewrite lev_refl|].
  pose proof (lev_edit_step s u t Hstep). lia.
Qed.

Lemma lev_is_edit_distance (s t : jsstring) : is_edit_distance s t (lev s t).
Proof. split; [apply lev_edits|intros n; apply lev_minimal]. Qed.

Lemma is_edit_distance_sym (s t : jsstring) (d : nat) :
  is_edit_distance s t d → is_edit_distance t s d.
Proof.
  intros [Hd Hmin]. split; [by apply edits_sym|].
  intros n Hn. by apply Hmin, edits_sym.
Qed.

Lemma is_edit_distance_reverse (s t : jsstring) (d : nat) :
  is_edit_distance (reverse s) (reverse t) d → is_edit_distance s t d.
Proof.
  intros [Hd Hmin]. split.
  - rewrite <-(reverse_involutive s), <-(reverse_involutive t).
    by apply edits_reverse.
  - intros n Hn. by apply Hmin, edits_reverse.
Qed.

Lemma is_edit_distance_unique (s t : jsstring) (d d' : nat) :
  is_edit_distance s t d → is_edit_distance s t d' → d = d'.
Proof. intros [H1 H1'] [H2 H2']. apply H1' in H2. apply H2' in H1. lia. Qed.

(** ** Loops with an invariant *)

Lemma forEachFrom_seq_invariant {St : Type} (Inv : nat → St → Prop)
    (body : St → nat → option St) (n from index : nat) (s : St) :
  Inv from s →
  (∀ k s, from ≤ k < from + n → Inv k s →
          ∃ s', body s k = Some s' ∧ Inv (S k) s') →
  ∃ s', forEachFrom (λ s i _, body s i) index (seq from n) s = Some s' ∧
        Inv (from + n) s'.
Proof.
  revert from index s. induction n as [|n IH]; intros from index s Hs Hbody.
  - exists s. by rewrite Nat.add_0_r.
  - destruct (Hbody from s ltac:(lia) Hs) as (s1 & Hs1 & HInv1).
    destruct (IH (S from) (S index) s1 HInv1) as (s' & Hs' & HInv').
    { intros k s2 Hk. apply Hbody. lia. }
    exists s'. simpl. rewrite Hs1. simpl. rewrite Hs'.
    by rewrite <-Nat.add_succ_comm.
Qed.

Lemma forUpTo_invariant {St : Type} (Inv : nat → St → Prop)
    (from to : nat) (body : St → nat → option St) (s : St) :
  from ≤ S to → Inv from s →
  (∀ k s, from ≤ k ≤ to → Inv k s → ∃ s', body s k = Some s' ∧ Inv (S k) s') →
  ∃ s', forUpTo from to body s = Some s' ∧ Inv (S to) s'.
Proof.
  intros Hle Hs Hbody.
  destruct (forEachFrom_seq_invariant Inv body (S to - from) from 0 s Hs)
    as (s' & Hs' & HInv).
  { intros k s0 Hk. apply Hbody. lia. }
  exists s'. split; [done|]. by replace (S to) with (from + (S to - from)) by lia.
Qed.

(** ** The matrix holds the recurrence *)

Lemma charAt_lookup (s : jsstring) (i : nat) (c : N) :
  s !! i = Some c → charAt s i = [c].
Proof. intros H. unfold charAt. by rewrite (drop_S _ _ _ H). Qed.

Lemma cell_setCell (matrix matrix' : gmap nat (gmap nat nat))
    (i j v i' j' : nat) :
  setCell matrix i j v = Some matrix' →
  cell matrix' i' j' =
    if decide (i' = i ∧ j' = j) then Some v else cell matrix i' j'.
Proof.
  unfold setCell, cell. intros H.
  destruct (matrix !! i) as [row|] eqn:Hrow; simplify_eq/=.
  destruct (decide (i' = i)) as [->|Hi].
  - rewrite lookup_insert_eq, Hrow. simpl.
    destruct (decide (j' = j)) as [->|Hj].
    + rewrite lookup_insert_eq. by rewrite decide_True.
    + rewrite lookup_insert_ne by done.
      rewrite decide_False; [done|by intros [??]].
  - rewrite lookup_insert_ne by done.
    rewrite decide_False; [done|by intros [??]].
Qed.

Lemma setCell_rows (matrix matrix' : gmap nat (gmap nat nat))
    (i j v i' : nat) :
  setCell matrix i j v = Some matrix' →
  is_Some (matrix !! i') → is_Some (matrix' !! i').
Proof.
  unfold setCell. intros H Hi'.
  destruct (matrix !! i) as [row|] eqn:Hrow; simplify_eq/=.
  destruct (decide (i' = i)) as [->|Hi].
  - rewrite lookup_insert_eq. eauto.
  - by rewrite lookup_insert_ne.
Qed.

Section Matrix.

Variables str1 str2 : jsstring.

Local Abbreviation D := (tableEntry str1 str2).

Lemma tableEntry_row_0 (j : nat) : j ≤ length str1 → D 0 j = j.
Proof.
  intros Hj. unfold tableEntry. simpl.
  rewrite length_reverse, length_take. lia.
Qed.

Lemma tableEntry_column_0 (i : nat) : i ≤ length str2 → D i 0 = i.
Proof.
  intros Hi. unfold tableEntry. simpl.
  rewrite lev_nil_r, length_reverse, length_take. lia.
Qed.

Lemma tableEntry_step (i j : nat) :
  1 ≤ i ≤ length str2 → 1 ≤ j ≤ length str1 →
  D i j =
    if decide (charAt str2 (i - 1) = charAt str1 (j - 1))
    then D (i - 1) (j - 1)
    else min3 (D (i - 1) (j - 1) + 1) (D i (j - 1) + 1) (D (i - 1) j + 1).
Proof.
  intros Hi Hj. destruct i as [|i]; [lia|]. destruct j as [|j]; [lia|].
  simpl. rewrite !Nat.sub_0_r.
  assert (is_Some (str2 !! i)) as [c2 Hc2] by (apply lookup_lt_is_Some_2; lia).
  assert (is_Some (str1 !! j)) as [c1 Hc1] by (apply lookup_lt_is_Some_2; lia).
  rewrite (charAt_lookup _ _ _ Hc2), (charAt_lookup _ _ _ Hc1).
  unfold tableEntry.
  rewrite (take_S_r _ _ _ Hc2), (take_S_r _ _ _ Hc1), !reverse_snoc.
  rewrite lev_cons. repeat case_decide; congruence.
Qed.

Lemma levenshteinCell_Filled (matrix : gmap nat (gmap nat nat)) (i j : nat) :
  1 ≤ i ≤ length str2 → 1 ≤ j ≤ length str1 →
  tableFilled str1 str2 i j matrix →
  ∃ matrix', levenshteinCell str1 str2 matrix i j = Some matrix' ∧
             tableFilled str1 str2 i (S j) matrix'.
Proof.
  intros Hi Hj [Hrows Hcells].
  assert (∃ matrix', setCell matrix i j (D i j) = Some matrix')
    as [matrix' Hset].
  { unfold setCell. destruct (Hrows i) as [row ->]; [lia|]. simpl. eauto. }
  exists matrix'. split.
  - unfold levenshteinCell. rewrite (tableEntry_step i j) in Hset by done.
    rewrite !Hcells by lia. simpl. by case_decide.
  - split.
    + intros i' Hi'. eapply setCell_rows; eauto.
    + intros i' j' Hi' Hj' Hpos. rewrite (cell_setCell _ _ _ _ _ _ _ Hset).
      case_decide as Heq; [by destruct Heq as [-> ->]|].
      apply Hcells; lia.
Qed.

Lemma levenshteinDistance_lev :
  levenshteinDistance str1 str2 = Some (lev (reverse str2) (reverse str1)).
Proof.
  unfold levenshteinDistance.
  (* the rows *)
  destruct (forUpTo_invariant
    (λ k (m : gmap nat (gmap nat nat)), ∀ i, i < k → m !! i = Some {[0 := i]})
    0 (length str2) (λ m i, Some (<[i := {[0 := i]}]> m)) ∅)
    as (m1 & -> & Hm1); [lia|intros; lia|..].
  { intros k m _ Hm. eexists; split; [done|]. intros i Hi.
    destruct (decide (i = k)) as [->|]; [by rewrite lookup_insert_eq|].
    rewrite lookup_insert_ne by done. apply Hm. lia. }
  (* the first row *)
  destruct (forUpTo_invariant
    (λ k (m : gmap nat (gmap nat nat)),
       (∀ i, 1 ≤ i ≤ length str2 → m !! i = Some {[0 := i]}) ∧
       ∃ row, m !! 0 = Some row ∧ ∀ j, j < k → row !! j = Some j)
    0 (length str1) (λ m j, setCell m 0 j j) m1)
    as (m2 & Hm2eq & Hm2rows & row0 & Hrow0 & Hm2); [lia|..].
  { split; [intros; apply Hm1; lia|]. eexists; split; [apply Hm1; lia|].
    intros; lia. }
  { intros k m _ (Hrows & row & Hrow & Hcols). unfold setCell. rewrite Hrow.
    eexists; split; [done|]. split.
    - intros i Hi. rewrite lookup_insert_ne by lia. by apply Hrows.
    - eexists; split; [apply lookup_insert_eq|]. intros j Hj.
      destruct (decide (j = k)) as [->|]; [by rewrite lookup_insert_eq|].
      rewrite lookup_insert_ne by done. apply Hcols. lia. }
  simpl. rewrite Hm2eq. simpl.
  (* the table *)
  destruct (forUpTo_invariant (λ i, tableFilled str1 str2 i 1) 1 (length str2)
    (λ m i, forUpTo 1 (length str1)
              (λ m j, levenshteinCell str1 str2 m i j) m) m2)
    as (m3 & -> & _ & Hm3); [lia|..].
  { split.
    - intros i Hi. destruct (decide (i = 0)) as [->|]; [by eauto|].
      rewrite Hm2rows by lia. eauto.
    - intros i j Hi Hj Hpos. unfold cell.
      destruct (decide (i = 0)) as [->|].
      + rewrite Hrow0. simpl. rewrite tableEntry_row_0 by done. apply Hm2. lia.
      + assert (j = 0) as -> by lia. rewrite Hm2rows by lia. simpl.
        rewrite lookup_singleton_eq. by rewrite tableEntry_column_0. }
  { intros i m Hi Hm.
    destruct (forUpTo_invariant (tableFilled str1 str2 i) 1 (length str1)
      (λ m j, levenshteinCell str1 str2 m i j) m) as (m' & -> & Hm');
      [lia|done|..].
    { intros j m0 Hj. by apply levenshteinCell_Filled. }
    exists m'. split; [done|]. destruct Hm' as [Hrows Hcells].
    split; [done|]. intros i' j' Hi' Hj' Hpos. apply Hcells; lia. }
  simpl. rewrite Hm3 by lia. unfold tableEntry.
  by rewrite !take_ge by lia.
Qed.

End Matrix.

(** The recurrence does not depend on the direction of reading, nor on the
    order of the two strings. *)
Lemma lev_reverse (s t : jsstring) : lev (reverse s) (reverse t) = lev s t.
Proof.
  eapply is_edit_distance_unique; [|apply lev_is_edit_distance].
  apply is_edit_distance_reverse, lev_is_edit_distance.
Qed.

Lemma lev_sym (s t : jsstring) : lev s t = lev t s.
Proof.
  eapply is_edit_distance_unique; [apply lev_is_edit_distance|].
  apply is_edit_distance_sym, lev_is_edit_distance.
Qed.

Lemma levenshteinDistance_Some (str1 str2 : jsstring) :
  levenshteinDistance str1 str2 = Some (lev str1 str2).
Proof. by rewrite levenshteinDistance_lev, lev_reverse, lev_sym. Qed.

(** ** Quotients *)

Lemma num_nonneg (n : nat) : (0 <= num n)%Q.
Proof. unfold num, Qle. simpl. lia. Qed.

Lemma num_le (a b : nat) : a ≤ b → (num a <= num b)%Q.
Proof. intros H. unfold num, Qle. simpl. lia. Qed.

Lemma num_pos (n : nat) : n ≠ 0 → (0 < num n)%Q.
Proof. intros H. unfold num, Qlt. simpl. lia. Qed.

Lemma divide_num (a : Q) (n : nat) :
  n ≠ 0 → divide a (num n) = Some (a / num n)%Q.
Proof.
  intros Hn. unfold divide.
  destruct (Qeq_bool (num n) 0) eqn:E; [|done].
  apply Qeq_bool_eq in E. pose proof (num_pos n Hn) as Hpos.
  rewrite E in Hpos. by apply Qlt_irrefl in Hpos.
Qed.

Lemma divide_zero (a : Q) : divide a (num 0) = None.
Proof. reflexivity. Qed.

Lemma ratio_bounds (a b : Q) :
  (0 <= a)%Q → (a <= b)%Q → (0 < b)%Q → (0 <= a / b)%Q ∧ (a / b <= 1)%Q.
Proof.
  intros Ha Hab Hb. split.
  - apply Qle_shift_div_l; [done|]. by rewrite Qmult_0_l.
  - apply Qle_shift_div_r; [done|]. by rewrite Qmult_1_l.
Qed.

Lemma ratio_self (b : Q) : (0 < b)%Q → (b / b == 1)%Q.
Proof.
  intros Hb. apply Qmult_inv_r. intros E. rewrite E in Hb.
  by apply Qlt_irrefl in Hb.
Qed.

Lemma Qgtb_true (a b : Q) : Qgtb a b = true ↔ (b < a)%Q.
Proof.
  unfold Qgtb. rewrite negb_true_iff, <-not_true_iff_false, Qle_bool_iff.
  split; [apply Qnot_le_lt|apply Qlt_not_le].
Qed.

Lemma Qgtb_false (a b : Q) : Qgtb a b = false ↔ (a <= b)%Q.
Proof. unfold Qgtb. by rewrite negb_false_iff, Qle_bool_iff. Qed.

Lemma Qle_bool_false (a b : Q) : Qle_bool a b = false ↔ (b < a)%Q.
Proof.
  rewrite <-not_true_iff_false, Qle_bool_iff.
  split; [apply Qnot_le_lt|apply Qlt_not_le].
Qed.

(** ** The three scorers *)

Lemma calculateLineSimilarity_Some (str1 str2 : jsstring) :
  calculateLineSimilarity str1 str2 =
    let n := length str1 `max` length str2 in
    if n =? 0 then Some 1%Q
    else Some ((num n - num (lev str1 str2)) / num n)%Q.
Proof.
  unfold calculateLineSimilarity. simpl.
  destruct (length str2 <? length str1) eqn:E;
    [apply Nat.ltb_lt in E|apply Nat.ltb_ge in E].
  - rewrite Nat.max_l by lia.
    destruct (length str1 =? 0) eqn:E0; [done|]. apply Nat.eqb_neq in E0.
    rewrite levenshteinDistance_Some. simpl. by apply divide_num.
  - rewrite Nat.max_r by lia.
    destruct (length str2 =? 0) eqn:E0; [done|]. apply Nat.eqb_neq in E0.
    rewrite levenshteinDistance_Some, (lev_sym str2 str1). simpl.
    by apply divide_num.
Qed.

Lemma calculateLineSimilarity_bounds (str1 str2 : jsstring) :
  ∃ q, calculateLineSimilarity str1 str2 = Some q ∧ (0 <= q)%Q ∧ (q <= 1)%Q.
Proof.
  rewrite calculateLineSimilarity_Some. simpl.
  destruct (_ =? 0) eqn:E0; [by eexists|]. apply Nat.eqb_neq in E0.
  eexists; split; [done|]. pose proof (lev_le_max str1 str2) as Hle.
  apply num_le in Hle. pose proof (num_nonneg (lev str1 str2)).
  apply ratio_bounds; [lra|lra|by apply num_pos].
Qed.

Lemma token_sets (tokens1 tokens2 : list jsstring) :
  let set1 : gset jsstring := list_to_set tokens1 in
  let set2 : gset jsstring := list_to_set tokens2 in
  (list_to_set (filter (λ x, x ∈ set2) (elements set1)) : gset jsstring)
    = set1 ∩ set2 ∧
  (list_to_set (elements set1 ++ elements set2) : gset jsstring) = set1 ∪ set2.
Proof.
  simpl. split; apply set_eq; intros x.
  - rewrite elem_of_list_to_set, list_elem_of_filter, elem_of_elements,
      elem_of_intersection. tauto.
  - by rewrite elem_of_list_to_set, elem_of_app, !elem_of_elements,
      elem_of_union.
Qed.

Lemma calculateTokenSimilarity_Some (tokens1 tokens2 : list jsstring) :
  calculateTokenSimilarity tokens1 tokens2 =
    let set1 : gset jsstring := list_to_set tokens1 in
    let set2 : gset jsstring := list_to_set tokens2 in
    if 0 <? size (set1 ∪ set2)
    then Some (num (size (set1 ∩ set2)) / num (size (set1 ∪ set2)))%Q
    else Some 0%Q.
Proof.
  unfold calculateTokenSimilarity.
  destruct (token_sets tokens1 tokens2) as [-> ->]. simpl.
  destruct (0 <? _) eqn:E; [|done]. apply Nat.ltb_lt in E.
  apply divide_num. lia.
Qed.

Lemma calculateTokenSimilarity_bounds (tokens1 tokens2 : list jsstring) :
  ∃ q, calculateTokenSimilarity tokens1 tokens2 = Some q ∧
       (0 <= q)%Q ∧ (q <= 1)%Q.
Proof.
  rewrite calculateTokenSimilarity_Some. simpl.
  destruct (0 <? _) eqn:E; [|by eexists]. apply Nat.ltb_lt in E.
  eexists; split; [done|].
  apply ratio_bounds; [apply num_nonneg| |apply num_pos; lia].
  apply num_le, subseteq_size. intros x.
  rewrite elem_of_intersection, elem_of_union. tauto.
Qed.

Section Scorers.

Variable toLowerCase : jsstring → jsstring.

Lemma calculateExactSimilarity_bounds (str1 str2 : jsstring) :
  ∃ q, calculateExactSimilarity toLowerCase str1 str2 = Some q ∧
       (0 <= q)%Q ∧ (q <= 1)%Q.
Proof.
  unfold calculateExactSimilarity. simpl.
  case_decide as Hne; [by eexists|].
  destruct (_ || _); [|by eexists].
  assert (length (normalize toLowerCase str1) `max`
          length (normalize toLowerCase str2) ≠ 0) as Hmax.
  { intros H0. apply Hne.
    destruct (normalize toLowerCase str1), (normalize toLowerCase str2);
      simpl in H0; by try lia. }
  rewrite divide_num by done. eexists; split; [done|].
  apply ratio_bounds; [apply num_nonneg|apply num_le; lia|by apply num_pos].
Qed.

(** C7.  Each of the three scorers returns a number between 0 and 1 on all
    inputs: the Jaccard score of two token lists (the intersection is never
    larger than the union), the exact-or-containment score of two lines (the
    shorter length over the longer one) and the Levenshtein-derived score (the
    edit distance is at most the length of the longer string). *)
Theorem scorers_in_unit_interval
    (tokens1 tokens2 : list jsstring) (str1 str2 : jsstring) :
  (∃ q, calculateTokenSimilarity tokens1 tokens2 = Some q ∧
        (0 <= q)%Q ∧ (q <= 1)%Q) ∧
  (∃ q, calculateExactSimilarity toLowerCase str1 str2 = Some q ∧
        (0 <= q)%Q ∧ (q <= 1)%Q) ∧
  (∃ q, calculateLineSimilarity str1 str2 = Some q ∧
        (0 <= q)%Q ∧ (q <= 1)%Q) ∧
  (∃ editDistance, levenshteinDistance str1 str2 = Some editDistance ∧
        editDistance ≤ length str1 `max` length str2).
Proof.
  split; [apply calculateTokenSimilarity_bounds|].
  split; [apply calculateExactSimilarity_bounds|].
  split; [apply calculateLineSimilarity_bounds|].
  exists (lev str1 str2). split; [apply levenshteinDistance_Some|apply lev_le_max].
Qed.

(** C9.  The Jaccard score does not depend on the order of the two
    documents. *)
Theorem jaccard_symmetric (A B : jsstring) :
  jaccard toLowerCase A B = jaccard toLowerCase B A ∧
  is_Some (jaccard toLowerCase A B).
Proof.
  unfold jaccard. split.
  - rewrite !calculateTokenSimilarity_Some. simpl.
    generalize (list_to_set (tokenize toLowerCase A) : gset jsstring).
    generalize (list_to_set (tokenize toLowerCase B) : gset jsstring).
    intros Y X. by rewrite (comm_L (∪) X Y), (comm_L (∩) X Y).
  - destruct (calculateTokenSimilarity_bounds (tokenize toLowerCase A)
                (tokenize toLowerCase B)) as (q & -> & _). eauto.
Qed.

(** Without a token both sets are empty and the score is 0. *)
Lemma jaccard_no_tokens (A : jsstring) :
  tokenize toLowerCase A = [] → jaccard toLowerCase A A = Some 0%Q.
Proof. intros H. unfold jaccard. by rewrite H. Qed.

(** C4, as amended.  The Jaccard score of a document with itself is 1 when
    the document has at least one token, that is, a run of letters and digits
    longer than two code units; a document without a token has an empty set
    of tokens, and its score with itself is 0. *)
Theorem jaccard_self (A : jsstring) :
  (tokenize toLowerCase A ≠ [] →
     ∃ q, jaccard toLowerCase A A = Some q ∧ (q == 1)%Q) ∧
  (tokenize toLowerCase A = [] → jaccard toLowerCase A A = Some 0%Q).
Proof.
  split; [|apply jaccard_no_tokens].
  intros Htokens. unfold jaccard. rewrite calculateTokenSimilarity_Some. simpl.
  assert (size (list_to_set (tokenize toLowerCase A) : gset jsstring) ≠ 0) as Hsize.
  { destruct (tokenize toLowerCase A) as [|token tokens]; [done|].
    rewrite size_non_empty_iff. intros Hempty.
    apply (not_elem_of_empty (C := gset jsstring) token).
    rewrite <-Hempty, list_to_set_cons, elem_of_union, elem_of_singleton. by left. }
  revert Hsize. generalize (list_to_set (tokenize toLowerCase A) : gset jsstring).
  intros X Hsize. rewrite (idemp_L (∪) X), (idemp_L (∩) X).
  destruct (0 <? _) eqn:E; [|apply Nat.ltb_ge in E; lia].
  eexists; split; [done|]. by apply ratio_self, num_pos.
Qed.

End Scorers.

(** C3.  The token-overlap threshold is determined by the bracket of the
    overall score, a boundary belonging to the bracket above it. *)
Theorem dynamicThreshold_table (overallScore : Q) :
  ((0.8 <= overallScore)%Q → dynamicThreshold overallScore = 0.20%Q) ∧
  ((0.6 <= overallScore)%Q ∧ (overallScore < 0.8)%Q →
     dynamicThreshold overallScore = 0.30%Q) ∧
  ((0.4 <= overallScore)%Q ∧ (overallScore < 0.6)%Q →
     dynamicThreshold overallScore = 0.40%Q) ∧
  ((overallScore < 0.4)%Q → dynamicThreshold overallScore = 0.50%Q) ∧
  dynamicThreshold 0.8 = 0.20%Q ∧ dynamicThreshold 0.6 = 0.30%Q ∧
  dynamicThreshold 0.4 = 0.40%Q ∧
  dynamicThreshold 0.85 = 0.20%Q ∧ dynamicThreshold 0.65 = 0.30%Q ∧
  dynamicThreshold 0.45 = 0.40%Q ∧ dynamicThreshold 0.10 = 0.50%Q.
Proof.
  unfold dynamicThreshold. repeat split; try reflexivity.
  - intros H. apply Qle_bool_iff in H. by rewrite H.
  - intros [H1 H2]. apply Qle_bool_iff in H1. apply Qle_bool_false in H2.
    by rewrite H2, H1.
  - intros [H1 H2].
    assert (Qle_bool 0.8 overallScore = false) as ->
      by (apply Qle_bool_false; lra).
    apply Qle_bool_iff in H1. apply Qle_bool_false in H2. by rewrite H2, H1.
  - intros H.
    assert (Qle_bool 0.8 overallScore = false) as ->
      by (apply Qle_bool_false; lra).
    assert (Qle_bool 0.6 overallScore = false) as ->
      by (apply Qle_bool_false; lra).
    apply Qle_bool_false in H. by rewrite H.
Qed.

(** C5.  The Levenshtein-derived similarity of two strings is
    [(max(len) - distance) / max(len)], where [distance] is the minimum number
    of insertions, deletions and substitutions of one code unit that
    transform one string into the other; it is 1 when both strings are empty
    and 0 when exactly one of them is. *)
Theorem calculateLineSimilarity_edit_distance (s1 s2 : jsstring) :
  ∃ (distance : nat) (sim : Q),
    is_edit_distance s1 s2 distance ∧
    levenshteinDistance s1 s2 = Some distance ∧
    levenshteinDistance s2 s1 = Some distance ∧
    calculateLineSimilarity s1 s2 = Some sim ∧
    (s1 = [] ∧ s2 = [] → (sim == 1)%Q) ∧
    (s1 ≠ [] ∨ s2 ≠ [] →
       (sim == (num (length s1 `max` length s2) - num distance)
               / num (length s1 `max` length s2))%Q) ∧
    (s1 = [] ∧ s2 ≠ [] ∨ s1 ≠ [] ∧ s2 = [] → (sim == 0)%Q).
Proof.
  exists (lev s1 s2). rewrite calculateLineSimilarity_Some. simpl.
  rewrite !levenshteinDistance_Some, (lev_sym s2 s1).
  destruct (_ =? 0) eqn:E0; [apply Nat.eqb_eq in E0|apply Nat.eqb_neq in E0].
  - exists 1%Q. split; [apply lev_is_edit_distance|]. do 3 (split; [done|]).
    destruct s1, s2; simpl in E0; try lia.
    split; [done|]. split; [by intros [[]|[]]|by intros [[_ []]|[[] _]]].
  - eexists. split; [apply lev_is_edit_distance|]. do 3 (split; [done|]).
    split; [intros [-> ->]; simpl in E0; lia|]. split; [done|].
    assert (∀ n, n ≠ 0 → ((num n - num n) / num n == 0)%Q) as Hzero.
    { intros n Hn. pose proof (num_pos n Hn). field. lra. }
    intros [[-> Hs2]|[Hs1 ->]].
    + simpl. apply Hzero. by destruct s2.
    + rewrite lev_nil_r, Nat.max_0_r. apply Hzero. by destruct s1.
Qed.

(** ** Distribution and summary *)

Lemma countLine_sum (ranges : Ranges) (d : LineMatch) :
  let r := countLine ranges d in
  exact r + high r + medium r + low r + none r =
  S (exact ranges + high ranges + medium ranges + low ranges + none ranges).
Proof.
  destruct ranges. unfold countLine.
  repeat (destruct (Qle_bool _ _) || destruct (Qgtb _ _)); simpl; lia.
Qed.

Lemma distribution_sum (matchData : list LineMatch) :
  let r := distributionOf matchData in
  exact r + high r + medium r + low r + none r = length matchData.
Proof.
  unfold distributionOf. simpl.
  assert (∀ ranges,
    let r := foldl countLine ranges matchData in
    exact r + high r + medium r + low r + none r =
    exact ranges + high ranges + medium ranges + low ranges + none ranges
    + length matchData) as H.
  { induction matchData as [|d l IH]; intros ranges; simpl; [lia|].
    rewrite IH. pose proof (countLine_sum ranges d) as Hd. simpl in Hd. lia. }
  apply (H (Build_Ranges 0 0 0 0 0)).
Qed.

(** The buckets are disjoint and cover the interval from 0 to 1. *)
Lemma inBucket_unique (x : Q) :
  (0 <= x)%Q → (x <= 1)%Q →
  ∃ b, inBucket b x ∧ ∀ b', inBucket b' x → b' = b.
Proof.
  intros H0 H1.
  destruct (Qlt_le_dec x 0.9); [|exists Exact; split; [done|]];
    [destruct (Qlt_le_dec x 0.7); [|exists High; split; [done|]];
     [destruct (Qlt_le_dec x 0.4); [|exists Medium; split; [done|]];
      [destruct (Qlt_le_dec 0 x); [exists Low|exists NoSimilarity];
       (split; [simpl; try done; lra|])|]|]|];
    intros []; simpl; try done; lra.
Qed.

(** One record goes to the bucket of its similarity. *)
Lemma countLine_bucket (ranges : Ranges) (d : LineMatch) (b : Bucket) :
  (0 <= similarity d)%Q → (similarity d <= 1)%Q →
  bucketCount b (countLine ranges d) =
    bucketCount b ranges + (if decide (inBucket b (similarity d)) then 1 else 0).
Proof.
  intros H0 H1. destruct ranges. unfold countLine.
  destruct (Qle_bool 0.9 _) eqn:E9;
    [apply Qle_bool_iff in E9|apply Qle_bool_false in E9;
     destruct (Qle_bool 0.7 _) eqn:E7;
     [apply Qle_bool_iff in E7|apply Qle_bool_false in E7;
      destruct (Qle_bool 0.4 _) eqn:E4;
      [apply Qle_bool_iff in E4|apply Qle_bool_false in E4;
       destruct (Qgtb _ 0) eqn:E0;
       [apply Qgtb_true in E0|apply Qgtb_false in E0]]]];
    destruct b; simpl; case_decide as Hb; simpl in Hb; lia || lra.
Qed.

(** ** The line-match records *)

Lemma forEachFrom_invariant {A St : Type} (Inv : list A → St → Prop)
    (body : St → A → nat → option St) (xs : list A) (index : nat) (s : St) :
  Inv [] s →
  (∀ done x rest s, xs = done ++ x :: rest → Inv done s →
     ∃ s', body s x (index + length done) = Some s' ∧ Inv (done ++ [x]) s') →
  ∃ s', forEachFrom body index xs s = Some s' ∧ Inv xs s'.
Proof.
  revert Inv index s. induction xs as [|x xs IH]; intros Inv index s Hs Hbody.
  - by exists s.
  - destruct (Hbody [] x xs s eq_refl Hs) as (s1 & Hs1 & HInv1).
    rewrite Nat.add_0_r in Hs1.
    destruct (IH (λ done, Inv (x :: done)) (S index) s1 HInv1) as (s' & Hs' & HInv').
    { intros done y rest s2 -> Hs2.
      destruct (Hbody (x :: done) y rest s2 eq_refl Hs2) as (s3 & Hs3 & HInv3).
      exists s3. split; [|done]. rewrite <-Hs3. f_equal. simpl. lia. }
    exists s'. simpl. rewrite Hs1. simpl. by rewrite Hs'.
Qed.

Lemma elem_of_snoc {A : Type} (y x : A) (l : list A) :
  y ∈ l ++ [x] ↔ y ∈ l ∨ y = x.
Proof. by rewrite elem_of_app, list_elem_of_singleton. Qed.

Lemma length_eqb_0 {A : Type} (l : list A) :
  (length l =? 0) = true ↔ l = [].
Proof. rewrite Nat.eqb_eq. by destruct l. Qed.

Lemma compareWithLine_compared (trimmed1 : jsstring) (done : list jsstring)
    (line2 : jsstring) (st : Q * bool) (index : nat) :
  compared trimmed1 done st →
  ∃ st', compareWithLine trimmed1 st line2 index = Some st' ∧
         compared trimmed1 (done ++ [line2]) st'.
Proof.
  destruct st as [m h]. intros (H0 & Hub & Hatt & Hh). simpl in *.
  unfold compareWithLine.
  destruct (length (trim line2) =? 0) eqn:E.
  - apply length_eqb_0 in E. exists (m, h). split; [done|].
    split; [done|]. simpl. repeat split.
    + intros l q [Hl| ->]%elem_of_snoc; [by apply Hub|done].
    + destruct Hatt as [(l & q & Hl & Hrest)|[Hnone Hm]].
      * left. exists l, q. rewrite elem_of_snoc. tauto.
      * right. split; [|done]. intros l [Hl| ->]%elem_of_snoc; auto.
    + intros Htrue. destruct (proj1 Hh Htrue) as (l & q & Hl & Hrest).
      exists l, q. rewrite elem_of_snoc. tauto.
    + intros (l & q & [Hl| ->]%elem_of_snoc & Hne & Hrest); [|done].
      apply Hh. eauto 6.
  - assert (trim line2 ≠ []) as Hne.
    { intros Hnil. apply length_eqb_0 in Hnil. congruence. }
    destruct (calculateLineSimilarity_bounds trimmed1 (trim line2))
      as (q & Hq & Hq0 & Hq1).
    rewrite Hq. simpl. eexists; split; [done|].
    assert (∀ l q', l = line2 →
              calculateLineSimilarity trimmed1 (trim l) = Some q' → q' = q)
      as Hsame by (intros l q' ->; congruence).
    split; simpl; [|split; [|split; [|split]]].
    + destruct (Qgtb q m); done.
    + intros l q' [Hl|Hl]%elem_of_snoc Hl' Hq'.
      * specialize (Hub l q' Hl Hl' Hq').
        destruct (Qgtb q m) eqn:Egt; [apply Qgtb_true in Egt; lra|done].
      * rewrite (Hsame l q' Hl Hq').
        destruct (Qgtb q m) eqn:Egt; [lra|by apply Qgtb_false in Egt].
    + left. destruct (Qgtb q m) eqn:Egt.
      * exists line2, q. rewrite elem_of_snoc. repeat split; auto; lra.
      * apply Qgtb_false in Egt.
        destruct Hatt as [(l & q' & Hl & Hrest)|[Hnone Hm]].
        -- exists l, q'. rewrite elem_of_snoc. tauto.
        -- exists line2, q. rewrite elem_of_snoc. repeat split; auto; lra.
    + intros Htrue. destruct (Qle_bool 0.8 q) eqn:E8.
      * apply Qle_bool_iff in E8. exists line2, q. rewrite elem_of_snoc. auto.
      * destruct (proj1 Hh Htrue) as (l & q' & Hl & Hrest).
        exists l, q'. rewrite elem_of_snoc. tauto.
    + intros (l & q' & [Hl|Hl]%elem_of_snoc & Hl' & Hq' & H8).
      * destruct (Qle_bool 0.8 q); [done|]. apply Hh. eauto 6.
      * rewrite (Hsame l q' Hl Hq') in H8. apply Qle_bool_iff in H8.
        by rewrite H8.
Qed.

Lemma compareWithLine_loop (trimmed1 : jsstring) (lines2 : list jsstring) :
  ∃ st, forEach (compareWithLine trimmed1) lines2 (0%Q, false) = Some st ∧
        compared trimmed1 lines2 st.
Proof.
  apply (forEachFrom_invariant (compared trimmed1)).
  - split; [done|]. simpl. split; [by intros l q Hl%elem_of_nil|].
    split; [right; split; [by intros l Hl%elem_of_nil|done]|].
    split; [done|]. by intros (l & q & Hl%elem_of_nil & _).
  - intros done x rest st _ Hst. by apply compareWithLine_compared.
Qed.

(** The final state gives the record of the line. *)
Lemma compared_bounds (trimmed1 : jsstring) (lines2 : list jsstring)
    (st : Q * bool) :
  compared trimmed1 lines2 st →
  (st.1 <= 1)%Q ∧ (st.2 = true ↔ (0.8 <= st.1)%Q).
Proof.
  intros (H0 & Hub & Hatt & Hh). split; [|split].
  - destruct Hatt as [(l & q & Hl & Hne & Hq & Heq)|[_ Hm]]; [|lra].
    destruct (calculateLineSimilarity_bounds trimmed1 (trim l))
      as (q' & Hq' & _ & Hq1).
    assert (q' = q) as -> by congruence. lra.
  - intros Htrue. destruct (proj1 Hh Htrue) as (l & q & Hl & Hne & Hq & H8).
    specialize (Hub l q Hl Hne Hq). lra.
  - intros H8. apply Hh.
    destruct Hatt as [(l & q & Hl & Hne & Hq & Heq)|[_ Hm]]; [|lra].
    exists l, q. repeat split; auto; lra.
Qed.

Lemma matchLine_record (lines2 : list jsstring) (matchData : list LineMatch)
    (line1 : jsstring) (index : nat) :
  ∃ d, matchLine lines2 matchData line1 index = Some (matchData ++ [d]) ∧
       line d = index + 1 ∧
       (trim line1 = [] → similarity d = 0%Q ∧ matched d = false) ∧
       (trim line1 ≠ [] →
          compared (trim line1) lines2 (similarity d, matched d)).
Proof.
  unfold matchLine. destruct (length (trim line1) =? 0) eqn:E.
  - apply length_eqb_0 in E. eexists; split; [done|]. by simpl.
  - assert (trim line1 ≠ []) as Hne.
    { intros Hnil. apply length_eqb_0 in Hnil. congruence. }
    destruct (compareWithLine_loop (trim line1) lines2) as ([m h] & -> & Hst).
    simpl. eexists; split; [done|]. by simpl.
Qed.

Lemma calculateLineMatchData_records (content1 content2 : jsstring) :
  ∃ matchData,
    calculateLineMatchData content1 content2 = Some matchData ∧
    length matchData = length (splitLines content1) ∧
    ∀ index line1, splitLines content1 !! index = Some line1 →
      ∃ d, matchData !! index = Some d ∧ line d = index + 1 ∧
           (trim line1 = [] → similarity d = 0%Q ∧ matched d = false) ∧
           (trim line1 ≠ [] →
              compared (trim line1) (splitLines content2)
                       (similarity d, matched d)).
Proof.
  unfold calculateLineMatchData, forEach.
  apply (forEachFrom_invariant (λ done matchData,
    length matchData = length done ∧
    ∀ index line1, done !! index = Some line1 →
      ∃ d, matchData !! index = Some d ∧ line d = index + 1 ∧
           (trim line1 = [] → similarity d = 0%Q ∧ matched d = false) ∧
           (trim line1 ≠ [] →
              compared (trim line1) (splitLines content2)
                       (similarity d, matched d)))).
  - split; [done|]. intros index line1 H. by rewrite lookup_nil in H.
  - intros done x rest matchData _ [Hlen Hrec]. simpl.
    destruct (matchLine_record (splitLines content2) matchData x (length done))
      as (d & -> & Hd).
    eexists; split; [done|]. split; [rewrite !length_app; simpl; lia|].
    intros index line1 Hindex.
    destruct (decide (index < length done)) as [Hlt|Hge].
    + rewrite lookup_app_l in Hindex by done.
      rewrite lookup_app_l by lia. by apply Hrec.
    + rewrite lookup_app_r in Hindex by lia.
      destruct (index - length done) as [|k] eqn:Ek; [|by destruct k].
      simpl in Hindex. injection Hindex as ->.
      assert (index = length done) as -> by lia.
      exists d. split; [|done].
      rewrite lookup_app_r by lia. by rewrite Hlen, Nat.sub_diag.
Qed.

Lemma splitFrom_length (sep : N) (field s : jsstring) :
  length (splitFrom sep field s) = S (length (filter (λ c, c = sep) s)).
Proof.
  revert field. induction s as [|c s IH]; intros field; [done|]. simpl.
  destruct (N.eqb_spec c sep) as [->|Hne].
  - rewrite filter_cons_True by done. simpl. by rewrite IH.
  - rewrite filter_cons_False by done. by rewrite IH.
Qed.

(** Splitting yields one line more than there are line feeds. *)
Lemma splitLines_length (s : jsstring) :
  length (splitLines s) = S (length (filter (λ c, c = LF) s)).
Proof. apply splitFrom_length. Qed.

(** C1.  The line-match computation returns one record per line of the
    reference submission, in order and numbered from 1.  A line of white space
    only has similarity 0 and is not matched.  For any other line the
    similarity is the largest line similarity of its trimmed text with the
    trimmed non-empty lines of the other submission, and 0 when there is no
    such line; the line is matched exactly when one of those similarities is
    at least 0.8, which is exactly when the recorded similarity is. *)
Theorem calculateLineMatchData_spec (content1 content2 : jsstring) :
  ∃ matchData,
    calculateLineMatchData content1 content2 = Some matchData ∧
    length matchData = length (splitLines content1) ∧
    ∀ index line1, splitLines content1 !! index = Some line1 →
      ∃ d, matchData !! index = Some d ∧ line d = index + 1 ∧
        (trim line1 = [] → (similarity d == 0)%Q ∧ matched d = false) ∧
        (trim line1 ≠ [] →
           (∀ line2, line2 ∈ splitLines content2 → trim line2 ≠ [] →
              ∃ q, calculateLineSimilarity (trim line1) (trim line2) = Some q ∧
                   (q <= similarity d)%Q) ∧
           ((∃ line2 q, line2 ∈ splitLines content2 ∧ trim line2 ≠ [] ∧
               calculateLineSimilarity (trim line1) (trim line2) = Some q ∧
               (q == similarity d)%Q) ∨
            ((∀ line2, line2 ∈ splitLines content2 → trim line2 = []) ∧
             (similarity d == 0)%Q)) ∧
           (matched d = true ↔
              ∃ line2 q, line2 ∈ splitLines content2 ∧ trim line2 ≠ [] ∧
                calculateLineSimilarity (trim line1) (trim line2) = Some q ∧
                (0.8 <= q)%Q) ∧
           (matched d = true ↔ (0.8 <= similarity d)%Q)).
Proof.
  destruct (calculateLineMatchData_records content1 content2)
    as (matchData & Heq & Hlen & Hrec).
  exists matchData. split; [done|]. split; [done|].
  intros index line1 Hindex.
  destruct (Hrec index line1 Hindex) as (d & Hd & Hline & Hempty & Hfull).
  exists d. split; [done|]. split; [done|]. split.
  - intros Hnil. destruct (Hempty Hnil) as [-> ->]. done.
  - intros Hne. specialize (Hfull Hne).
    pose proof (compared_bounds _ _ _ Hfull) as [_ Hmatched].
    destruct Hfull as (_ & Hub & Hatt & Hh). simpl in *.
    split; [|done]. intros line2 Hline2 Hne2.
    destruct (calculateLineSimilarity_bounds (trim line1) (trim line2))
      as (q & Hq & _).
    exists q. split; [done|]. by eapply Hub.
Qed.

Lemma calculateLineMatchData_valid (content1 content2 : jsstring)
    (matchData : list LineMatch) :
  calculateLineMatchData content1 content2 = Some matchData →
  Forall (λ d, (0 <= similarity d)%Q ∧ (similarity d <= 1)%Q) matchData.
Proof.
  intros Heq.
  destruct (calculateLineMatchData_records content1 content2)
    as (matchData' & Heq' & Hlen & Hrec).
  assert (matchData' = matchData) as -> by congruence.
  apply Forall_lookup. intros index d Hd.
  assert (is_Some (splitLines content1 !! index)) as [line1 Hline1].
  { apply lookup_lt_is_Some. rewrite <-Hlen. by eapply lookup_lt_Some. }
  destruct (Hrec index line1 Hline1) as (d' & Hd' & _ & Hempty & Hfull).
  assert (d' = d) as -> by congruence.
  destruct (decide (trim line1 = [])) as [Hnil|Hne].
  - destruct (Hempty Hnil) as [-> _]. done.
  - specialize (Hfull Hne). pose proof (compared_bounds _ _ _ Hfull) as [H1 _].
    destruct Hfull as (H0 & _). done.
Qed.

Lemma distribution_counts (matchData : list LineMatch) (b : Bucket) :
  Forall (λ d, (0 <= similarity d)%Q ∧ (similarity d <= 1)%Q) matchData →
  bucketCount b (distributionOf matchData) = inBucketCount b matchData.
Proof.
  intros Hvalid. unfold distributionOf, inBucketCount.
  assert (∀ ranges,
    bucketCount b (foldl countLine ranges matchData) =
    bucketCount b ranges +
    length (filter (λ d, inBucket b (similarity d)) matchData)) as H.
  { induction Hvalid as [|d l [Hd0 Hd1] _ IH]; intros ranges; simpl; [lia|].
    rewrite IH, countLine_bucket by done.
    case_decide; [rewrite filter_cons_True by done; simpl; lia|].
    rewrite filter_cons_False by done. lia. }
  rewrite H. by destruct b.
Qed.

(** C2.  The distribution puts each record into exactly one of the five
    buckets, exact [0.9, 1], high [0.7, 0.9), medium [0.4, 0.7), low (0, 0.4)
    and none {0}, so the five counts add up to the number of records, and for
    the records of two submissions to the number of lines of the reference
    submission. *)
Theorem distribution_buckets :
  (∀ matchData : list LineMatch,
     Forall (λ d, (0 <= similarity d)%Q ∧ (similarity d <= 1)%Q) matchData →
     let ranges := distributionOf matchData in
     (∀ b, bucketCount b ranges = inBucketCount b matchData) ∧
     (∀ d, d ∈ matchData →
        ∃ b, inBucket b (similarity d) ∧
             ∀ b', inBucket b' (similarity d) → b' = b) ∧
     exact ranges + high ranges + medium ranges + low ranges + none ranges
       = length matchData) ∧
  (∀ content1 content2 : jsstring,
     ∃ matchData ranges,
       calculateLineMatchData content1 content2 = Some matchData ∧
       Forall (λ d, (0 <= similarity d)%Q ∧ (similarity d <= 1)%Q) matchData ∧
       calculateSimilarityDistribution content1 content2 = Some ranges ∧
       ranges = distributionOf matchData ∧
       exact ranges + high ranges + medium ranges + low ranges + none ranges
         = length (splitLines content1)).
Proof.
  split.
  - intros matchData Hvalid. simpl. split; [|split].
    + intros b. by apply distribution_counts.
    + intros d Hd. rewrite Forall_forall in Hvalid.
      destruct (Hvalid d Hd). by apply inBucket_unique.
    + apply distribution_sum.
  - intros content1 content2.
    destruct (calculateLineMatchData_records content1 content2)
      as (matchData & Heq & Hlen & _).
    exists matchData, (distributionOf matchData).
    split; [done|]. split; [by eapply calculateLineMatchData_valid|].
    split; [unfold calculateSimilarityDistribution; by rewrite Heq|].
    split; [done|]. rewrite <-Hlen. apply distribution_sum.
Qed.

Lemma matchPercentage_division (lineMatchData : list LineMatch) :
  totalLines lineMatchData ≠ 0 →
  matchPercentage lineMatchData =
    Some (num (matchedLines lineMatchData)
          / num (totalLines lineMatchData) * 100)%Q.
Proof.
  intros Hne. unfold matchPercentage.
  destruct (0 <? _) eqn:E; [|apply Nat.ltb_ge in E; lia].
  by rewrite divide_num.
Qed.

(** C8.  The match percentage is the share of matched records times 100,
    and 0 for an empty sequence of records; it never divides by zero. *)
Theorem matchPercentage_spec (lineMatchData : list LineMatch) :
  totalLines lineMatchData = length lineMatchData ∧
  matchedLines lineMatchData =
    length (filter (λ d, matched d = true) lineMatchData) ∧
  (totalLines lineMatchData = 0 → matchPercentage lineMatchData = Some 0%Q) ∧
  (totalLines lineMatchData ≠ 0 →
     matchPercentage lineMatchData =
       Some (num (matchedLines lineMatchData)
             / num (totalLines lineMatchData) * 100)%Q).
Proof.
  split; [done|]. split; [done|]. split.
  - unfold matchPercentage. by intros ->.
  - apply matchPercentage_division.
Qed.

(** C10.  Every content, the empty one included, has at least one line, so
    there is at least one record: the match percentage is always computed by
    the division, and no percentage of a bucket divides by zero. *)
Theorem totalLines_positive (content1 content2 : jsstring) :
  1 ≤ length (splitLines content1) ∧
  length (splitLines []) = 1 ∧
  ∃ lineMatchData,
    calculateLineMatchData content1 content2 = Some lineMatchData ∧
    1 ≤ totalLines lineMatchData ∧
    (0 <? totalLines lineMatchData) = true ∧
    matchPercentage lineMatchData =
      Some (num (matchedLines lineMatchData)
            / num (totalLines lineMatchData) * 100)%Q ∧
    ∀ count, bucketPercentage count (totalLines lineMatchData) =
      Some (num count / num (totalLines lineMatchData) * 100)%Q.
Proof.
  split; [rewrite splitLines_length; lia|]. split; [done|].
  destruct (calculateLineMatchData_records content1 content2)
    as (lineMatchData & Heq & Hlen & _).
  exists lineMatchData. split; [done|].
  assert (1 ≤ totalLines lineMatchData) as Hpos.
  { unfold totalLines. rewrite Hlen, splitLines_length. lia. }
  split; [done|]. split; [by apply Nat.ltb_lt|]. split.
  - apply matchPercentage_division. lia.
  - intros count. unfold bucketPercentage. rewrite divide_num by lia. done.
Qed.

(** ** Direct line matching *)

Lemma startsWith_prefix (s t : jsstring) :
  startsWith s t = true ↔ ∃ post, s = t ++ post.
Proof.
  revert s. induction t as [|d t IH]; intros s; simpl.
  - split; [intros _; by exists s|done].
  - destruct s as [|c s]; [split; [done|by intros [post ?]]|].
    rewrite andb_true_iff, N.eqb_eq, IH. split.
    + intros [-> [post ->]]. eauto.
    + intros [post [= -> ->]]. eauto.
Qed.

Lemma includes_contains (s t : jsstring) : includes s t = true ↔ contains s t.
Proof.
  unfold contains. induction s as [|c s IH]; simpl.
  - rewrite orb_false_r, startsWith_prefix. split.
    + intros [post H]. by exists [], post.
    + intros (pre & post & H). symmetry in H.
      apply app_eq_nil in H as [-> [-> ->]%app_eq_nil]. by exists [].
  - rewrite orb_true_iff, IH, startsWith_prefix. split.
    + intros [[post H]|(pre & post & H)]; [by exists [], post|].
      exists (c :: pre), post. by rewrite H.
    + intros ([|c' pre] & post & H); [left; by exists post|].
      injection H as -> ->. right. eauto.
Qed.

Section DirectLineMatching.

Variable toLowerCase : jsstring → jsstring.

Lemma calculateExactSimilarity_cases (str1 str2 : jsstring) :
  let norm1 := normalize toLowerCase str1 in
  let norm2 := normalize toLowerCase str2 in
  ∃ exactSim,
    calculateExactSimilarity toLowerCase str1 str2 = Some exactSim ∧
    (norm1 = norm2 → (exactSim == 1)%Q) ∧
    (norm1 ≠ norm2 → contains norm1 norm2 ∨ contains norm2 norm1 →
       (exactSim == num (length norm1 `min` length norm2)
                    / num (length norm1 `max` length norm2))%Q) ∧
    (norm1 ≠ norm2 → ¬ contains norm1 norm2 → ¬ contains norm2 norm1 →
       (exactSim == 0)%Q).
Proof.
  simpl. unfold calculateExactSimilarity. simpl.
  case_decide as Hne; [by exists 1%Q|].
  destruct (includes _ _ || includes _ _) eqn:E.
  - assert (length (normalize toLowerCase str1) `max`
            length (normalize toLowerCase str2) ≠ 0) as Hmax.
    { intros H0. apply Hne.
      destruct (normalize toLowerCase str1), (normalize toLowerCase str2);
        simpl in H0; by try lia. }
    rewrite divide_num by done. eexists; split; [done|].
    split; [done|]. split; [done|]. intros _ H1 H2.
    apply orb_true_iff in E as [E|E]; apply includes_contains in E; done.
  - exists 0%Q. split; [done|]. split; [done|]. split; [|done].
    intros _ [H|H]; apply includes_contains in H;
      apply orb_false_iff in E as [E1 E2]; congruence.
Qed.

Lemma findDirectMatch_found (trimmedLine : jsstring) (otherLines : list jsstring) :
  ∃ found,
    findDirectMatch toLowerCase trimmedLine otherLines = Some found ∧
    (found = true ↔
       ∃ otherLine exactSim, otherLine ∈ otherLines ∧ trim otherLine ≠ [] ∧
         calculateExactSimilarity toLowerCase trimmedLine (trim otherLine)
           = Some exactSim ∧ (0.80 <= exactSim)%Q).
Proof.
  induction otherLines as [|otherLine rest (found & IH & Hfound)]; simpl.
  - exists false. split; [done|]. split; [done|].
    by intros (l & q & Hl%elem_of_nil & _).
  - destruct (length (trim otherLine) =? 0) eqn:E.
    + apply length_eqb_0 in E. exists found. split; [done|].
      rewrite Hfound. split.
      * intros (l & q & Hl & Hrest). exists l, q. rewrite elem_of_cons. tauto.
      * intros (l & q & [->|Hl]%elem_of_cons & Hne & Hrest); [done|eauto 6].
    + assert (trim otherLine ≠ []) as Hne.
      { intros Hnil. apply length_eqb_0 in Hnil. congruence. }
      destruct (calculateExactSimilarity_bounds toLowerCase trimmedLine
                  (trim otherLine)) as (q & Hq & _).
      rewrite Hq. simpl. destruct (Qle_bool 0.80 q) eqn:E8.
      * apply Qle_bool_iff in E8. exists true. split; [done|].
        split; [|done]. intros _. exists otherLine, q.
        rewrite elem_of_cons. auto.
      * apply Qle_bool_false in E8. exists found. split; [done|].
        rewrite Hfound. split.
        -- intros (l & q' & Hl & Hrest). exists l, q'.
           rewrite elem_of_cons. tauto.
        -- intros (l & q' & [->|Hl]%elem_of_cons & Hl' & Hq' & H8);
             [|eauto 6].
           assert (q' = q) as -> by congruence. lra.
Qed.

(** C6.  Direct line matching records a line exactly when the line is not
    blank and some non-blank line of the other submission has an
    exact-or-containment similarity of at least 0.80 with it, where that
    similarity is 1 for identical normalized lines, the shorter length over
    the longer one when one normalized line contains the other, and 0
    otherwise. *)
Theorem directLineMatching_spec (lines otherLines : list jsstring) :
  (∃ plagiarizedLines,
     directLineMatching toLowerCase lines otherLines = Some plagiarizedLines ∧
     ∀ lineIndex, lineIndex ∈ plagiarizedLines ↔
       ∃ line, lines !! lineIndex = Some line ∧ trim line ≠ [] ∧
         ∃ otherLine exactSim, otherLine ∈ otherLines ∧ trim otherLine ≠ [] ∧
           calculateExactSimilarity toLowerCase (trim line) (trim otherLine)
             = Some exactSim ∧ (0.80 <= exactSim)%Q) ∧
  (∀ str1 str2,
     let norm1 := normalize toLowerCase str1 in
     let norm2 := normalize toLowerCase str2 in
     ∃ exactSim,
       calculateExactSimilarity toLowerCase str1 str2 = Some exactSim ∧
       (norm1 = norm2 → (exactSim == 1)%Q) ∧
       (norm1 ≠ norm2 → contains norm1 norm2 ∨ contains norm2 norm1 →
          (exactSim == num (length norm1 `min` length norm2)
                       / num (length norm1 `max` length norm2))%Q) ∧
       (norm1 ≠ norm2 → ¬ contains norm1 norm2 → ¬ contains norm2 norm1 →
          (exactSim == 0)%Q)).
Proof.
  split; [|apply calculateExactSimilarity_cases].
  unfold directLineMatching, forEach.
  apply (forEachFrom_invariant (λ done (plagiarizedLines : gset nat),
    ∀ lineIndex, lineIndex ∈ plagiarizedLines ↔
      ∃ line, done !! lineIndex = Some line ∧ trim line ≠ [] ∧
        ∃ otherLine exactSim, otherLine ∈ otherLines ∧ trim otherLine ≠ [] ∧
          calculateExactSimilarity toLowerCase (trim line) (trim otherLine)
            = Some exactSim ∧ (0.80 <= exactSim)%Q)).
  - intros lineIndex. split; [by intros H%not_elem_of_empty|].
    intros (line & H & _). by rewrite lookup_nil in H.
  - intros done line rest plagiarizedLines _ HInv. simpl.
    assert (∀ lineIndex l, (done ++ [line]) !! lineIndex = Some l ↔
              done !! lineIndex = Some l ∨ lineIndex = length done ∧ l = line)
      as Hsnoc.
    { intros lineIndex l. rewrite lookup_snoc_Some. split.
      - intros [[_ H]|[-> ->]]; [by left|by right].
      - intros [H|[-> ->]]; [left|by right].
        split; [by eapply lookup_lt_Some|done]. }
    unfold directMatchLine. destruct (length (trim line) =? 0) eqn:E.
    + apply length_eqb_0 in E. eexists; split; [done|].
      intros lineIndex. rewrite HInv. split.
      * intros (l & Hl & Hrest). exists l. rewrite Hsnoc. tauto.
      * intros (l & [Hl|[_ ->]]%Hsnoc & Hne & Hrest); [eauto|done].
    + assert (trim line ≠ []) as Hne.
      { intros Hnil. apply length_eqb_0 in Hnil. congruence. }
      destruct (findDirectMatch_found (trim line) otherLines)
        as (found & -> & Hfound).
      simpl. eexists; split; [done|]. intros lineIndex.
      destruct found.
      * rewrite elem_of_union, elem_of_singleton, HInv. split.
        -- intros [->|(l & Hl & Hrest)].
           ++ exists line. rewrite Hsnoc. split; [by right|].
              split; [done|]. by apply Hfound.
           ++ exists l. rewrite Hsnoc. tauto.
        -- intros (l & [Hl|[-> ->]]%Hsnoc & Hrest); [right; eauto|by left].
      * rewrite HInv. split.
        -- intros (l & Hl & Hrest). exists l. rewrite Hsnoc. tauto.
        -- intros (l & [Hl|[-> ->]]%Hsnoc & Hl' & Hrest); [eauto|].
           apply Hfound in Hrest. done.
Qed.

(** Without segments, or on an empty text, [highlightMatches] returns the
    text as it is: no step runs and no line is highlighted. *)
Lemma highlightMatches_early_return (overallScore : Q)
    (content1 content2 text : jsstring) (segments : list MatchedSegment)
    (isFirst : bool) :
  segments = [] ∨ text = [] →
  highlightMatches toLowerCase overallScore content1 content2 text segments
    isFirst = Some ∅.
Proof. unfold highlightMatches. by intros [->| ->]; [|rewrite orb_true_r]. Qed.

End DirectLineMatching.

(** * Worked examples *)

Example levenshteinDistance_kitten :
  levenshteinDistance (str "kitten") (str "sitting") = Some 3.
Proof. by vm_compute. Qed.

Example calculateLineMatchData_threeLines :
  calculateLineMatchData threeLines twoLines =
    Some [ {| line := 1; similarity := 2 # 4; matched := false |};
           {| line := 2; similarity := 0; matched := false |};
           {| line := 3; similarity := 5 # 5; matched := true |} ].
Proof. by vm_compute. Qed.

Example calculateLineMatchData_empty :
  calculateLineMatchData [] [] =
    Some [ {| line := 1; similarity := 0; matched := false |} ].
Proof. by vm_compute. Qed.

Example identical_submissions :
  calculateSimilarityDistribution fiveLines fiveLines =
    Some {| exact := 5; high := 0; medium := 0; low := 0; none := 0 |}.
Proof. by vm_compute. Qed.

Example matchPercentage_threeLines :
  (matchData ← calculateLineMatchData threeLines twoLines;
   matchPercentage matchData) = Some (100 # 3).
Proof. by vm_compute. Qed.

Example tokenize_short_tokens :
  tokenize toLowerBasicLatin (str "Hello, World! ab x1y2z") =
    [str "hello"; str "world"; str "x1y2z"].
Proof. by vm_compute. Qed.

Example directLineMatching_example :
  elements <$> directLineMatching toLowerBasicLatin
                 [str "  Foo   bar "; str ""; str "x = 1"]
                 [str "foo bar baz"; str "X = 1;"] = Some [2].
Proof. by vm_compute. Qed.

(** The theorems at concrete inputs. *)

Lemma calculateLineMatchData_spec_witness :
  ∃ matchData d,
    calculateLineMatchData threeLines twoLines = Some matchData ∧
    splitLines threeLines !! 2 = Some (str "hello") ∧
    trim (str "hello") ≠ [] ∧
    matchData !! 2 = Some d ∧ line d = 3 ∧
    (matched d = true ↔ (0.8 <= similarity d)%Q).
Proof.
  destruct (calculateLineMatchData_spec threeLines twoLines)
    as (matchData & Heq & _ & Hrec).
  destruct (Hrec 2 (str "hello") eq_refl) as (d & Hd & Hline & _ & Hfull).
  assert (trim (str "hello") ≠ []) as Hne by (by vm_compute).
  destruct (Hfull Hne) as (_ & _ & _ & Hmatched).
  exists matchData, d. repeat split; try done; apply Hmatched.
Defined.

Lemma distribution_buckets_witness :
  Forall (λ d, (0 <= similarity d)%Q ∧ (similarity d <= 1)%Q) sampleRecords ∧
  bucketCount Medium (distributionOf sampleRecords)
    = inBucketCount Medium sampleRecords ∧
  exact (distributionOf sampleRecords) + high (distributionOf sampleRecords)
    + medium (distributionOf sampleRecords) + low (distributionOf sampleRecords)
    + none (distributionOf sampleRecords) = 3.
Proof.
  assert (Forall (λ d, (0 <= similarity d)%Q ∧ (similarity d <= 1)%Q)
                 sampleRecords) as Hvalid.
  { repeat (constructor; [split; by vm_compute|]). constructor. }
  destruct (proj1 distribution_buckets sampleRecords Hvalid)
    as (Hcount & _ & Hsum).
  split; [done|]. split; [apply Hcount|apply Hsum].
Defined.

Lemma dynamicThreshold_table_witness :
  (0.6 <= 0.7)%Q ∧ (0.7 < 0.8)%Q ∧ dynamicThreshold 0.7 = 0.30%Q.
Proof.
  assert ((0.6 <= 0.7)%Q ∧ (0.7 < 0.8)%Q) as H by (split; by vm_compute).
  destruct (dynamicThreshold_table 0.7) as (_ & Hbracket & _).
  split; [apply H|]. split; [apply H|]. by apply Hbracket.
Defined.

Lemma jaccard_self_witness :
  (tokenize toLowerBasicLatin (str "abc def") ≠ [] ∧
   ∃ q, jaccard toLowerBasicLatin (str "abc def") (str "abc def") = Some q ∧
        (q == 1)%Q) ∧
  (tokenize toLowerBasicLatin (str "a b") = [] ∧
   jaccard toLowerBasicLatin (str "a b") (str "a b") = Some 0%Q).
Proof.
  assert (tokenize toLowerBasicLatin (str "abc def") ≠ []) as H
    by (by vm_compute).
  assert (tokenize toLowerBasicLatin (str "a b") = []) as H'
    by (by vm_compute).
  split; (split; [done|]).
  - by apply (jaccard_self toLowerBasicLatin (str "abc def")).
  - by apply (jaccard_self toLowerBasicLatin (str "a b")).
Defined.

(** C4, as stated, fails: a document without a token longer than two code
    units is not empty, and its score with itself is 0. *)
Lemma jaccard_self_counterexample :
  str "ab" ≠ [] ∧
  ∃ q, jaccard toLowerBasicLatin (str "ab") (str "ab") = Some q ∧
       ¬ (q == 1)%Q.
Proof. split; [by vm_compute|]. exists 0%Q. split; by vm_compute. Qed.

Lemma calculateLineSimilarity_edit_distance_witness :
  (str "kitten" ≠ [] ∧ ([] : jsstring) = []) ∧
  ∃ sim, calculateLineSimilarity (str "kitten") [] = Some sim ∧ (sim == 0)%Q.
Proof.
  assert (str "kitten" ≠ [] ∧ ([] : jsstring) = []) as H
    by (split; by vm_compute).
  destruct (calculateLineSimilarity_edit_distance (str "kitten") [])
    as (distance & sim & _ & _ & _ & Heq & _ & _ & Hzero).
  split; [done|]. exists sim. split; [done|]. apply Hzero. by right.
Defined.

Lemma directLineMatching_spec_witness :
  ∃ plagiarizedLines,
    directLineMatching toLowerBasicLatin [str "x = 1"] [str "X = 1;"]
      = Some plagiarizedLines ∧
    0 ∈ plagiarizedLines.
Proof.
  destruct (directLineMatching_spec toLowerBasicLatin [str "x = 1"] [str "X = 1;"])
    as [(plagiarizedLines & Heq & Hin) _].
  exists plagiarizedLines. split; [done|]. apply Hin.
  exists (str "x = 1"). split; [done|]. split; [by vm_compute|].
  exists (str "X = 1;"), (5 # 6)%Q. split; [apply list_elem_of_here|].
  split; [by vm_compute|]. split; by vm_compute.
Defined.

Lemma matchPercentage_spec_witness :
  totalLines sampleRecords ≠ 0 ∧
  matchPercentage sampleRecords = Some (num 1 / num 3 * 100)%Q.
Proof.
  assert (totalLines sampleRecords ≠ 0) as H by (by vm_compute).
  destruct (matchPercentage_spec sampleRecords) as (_ & _ & _ & Hdiv).
  split; [done|]. by apply Hdiv.
Defined.

(** * Further properties *)

(** ** The edit distance as a metric *)

Lemma edits_app (n m : nat) (s u t : jsstring) :
  edits n s u → edits m u t → edits (n + m) s t.
Proof.
  induction 1 as [|n s v u Hstep _ IH]; intros Hm; [done|].
  simpl. eapply edits_step; [done|by apply IH].
Qed.

Lemma edits_0_eq (s t : jsstring) : edits 0 s t → s = t.
Proof. by inversion 1. Qed.

Lemma lev_eq_0 (s t : jsstring) : lev s t = 0 ↔ s = t.
Proof.
  split; [|intros ->; apply lev_refl].
  intros H. apply edits_0_eq. rewrite <-H. apply lev_edits.
Qed.

Lemma lev_triangle (s u t : jsstring) : lev s t ≤ lev s u + lev u t.
Proof. apply lev_minimal, (edits_app _ _ s u t); apply lev_edits. Qed.

Lemma edit_step_length (s u : jsstring) :
  edit_step s u → length s ≤ S (length u) ∧ length u ≤ S (length s).
Proof. intros []; rewrite !length_app; simpl; lia. Qed.

Lemma edits_length (n : nat) (s t : jsstring) :
  edits n s t → length s ≤ length t + n ∧ length t ≤ length s + n.
Proof.
  induction 1 as [|n s u t Hstep%edit_step_length _ IH]; lia.
Qed.

Lemma lev_length_difference (s t : jsstring) :
  length s `max` length t - length s `min` length t ≤ lev s t.
Proof. pose proof (edits_length _ _ _ (lev_edits s t)). lia. Qed.

(** X1.  The edit distance that [levenshteinDistance] returns is a metric on
    strings: it is 0 exactly for equal strings, it does not depend on the
    order of its arguments, and it satisfies the triangle inequality. *)
Theorem levenshteinDistance_metric (s t u : jsstring) :
  ∃ dst dts dtu dsu,
    levenshteinDistance s t = Some dst ∧
    levenshteinDistance t s = Some dts ∧
    levenshteinDistance t u = Some dtu ∧
    levenshteinDistance s u = Some dsu ∧
    (dst = 0 ↔ s = t) ∧ dts = dst ∧ dsu ≤ dst + dtu.
Proof.
  exists (lev s t), (lev t s), (lev t u), (lev s u).
  rewrite !levenshteinDistance_Some. do 4 (split; [done|]).
  split; [apply lev_eq_0|]. split; [apply lev_sym|apply lev_triangle].
Qed.

(** X2.  The edit distance is at least the difference of the two lengths, so
    the line similarity is at most the shorter length over the longer one: a
    similarity of 0.8 or more needs a shorter string of at least four fifths
    of the longer one. *)
Theorem calculateLineSimilarity_length_bound (s1 s2 : jsstring) :
  ∃ editDistance sim,
    levenshteinDistance s1 s2 = Some editDistance ∧
    length s1 `max` length s2 - length s1 `min` length s2 ≤ editDistance ∧
    calculateLineSimilarity s1 s2 = Some sim ∧
    (s1 ≠ [] ∨ s2 ≠ [] →
       (sim <= num (length s1 `min` length s2)
               / num (length s1 `max` length s2))%Q) ∧
    ((0.8 <= sim)%Q →
       4 * (length s1 `max` length s2) ≤ 5 * (length s1 `min` length s2)).
Proof.
  exists (lev s1 s2). rewrite levenshteinDistance_Some,
    calculateLineSimilarity_Some. simpl.
  pose proof (lev_length_difference s1 s2) as Hlow.
  pose proof (lev_le_max s1 s2) as Hhigh.
  destruct (_ =? 0) eqn:E0; [apply Nat.eqb_eq in E0|apply Nat.eqb_neq in E0].
  - exists 1%Q. do 3 (split; [done|]).
    destruct s1, s2; simpl in E0; try lia.
    split; [by intros [|]|]. intros _. simpl. lia.
  - eexists. do 3 (split; [done|]).
    set (n := length s1 `max` length s2) in *.
    set (m := length s1 `min` length s2) in *.
    pose proof (num_pos n E0) as Hn.
    assert (num n - num (lev s1 s2) <= num m)%Q as Hle.
    { unfold num, Qle. simpl. lia. }
    split.
    + intros _. apply Qle_shift_div_l; [done|].
      unfold Qdiv. rewrite <-Qmult_assoc, (Qmult_comm (/ num n)).
      rewrite Qmult_inv_r, Qmult_1_r; [done|]. intros E. rewrite E in Hn.
      by apply Qlt_irrefl in Hn.
    + intros H8.
      assert (0.8 * num n <= num n - num (lev s1 s2))%Q as H.
      { apply (Qmult_le_r _ _ (/ num n)); [by apply Qinv_lt_0_compat|].
        rewrite <-Qmult_assoc, Qmult_inv_r, Qmult_1_r; [done|].
        intros E. rewrite E in Hn. by apply Qlt_irrefl in Hn. }
      assert (0.8 * num n <= num m)%Q as H' by lra.
      unfold num, Qle, Qmult in H'. simpl in H'. lia.
Qed.

Lemma calculateLineSimilarity_one_iff (s1 s2 : jsstring) :
  ∃ sim, calculateLineSimilarity s1 s2 = Some sim ∧
         ((sim == 1)%Q ↔ s1 = s2).
Proof.
  rewrite calculateLineSimilarity_Some. simpl.
  destruct (_ =? 0) eqn:E0; [apply Nat.eqb_eq in E0|apply Nat.eqb_neq in E0].
  - exists 1%Q. split; [done|]. destruct s1, s2; simpl in E0; try lia. done.
  - eexists. split; [done|]. rewrite <-lev_eq_0.
    set (n := length s1 `max` length s2) in *.
    pose proof (num_pos n E0) as Hn.
    assert (¬ (num n == 0)%Q) as Hn0.
    { intros E. rewrite E in Hn. by apply Qlt_irrefl in Hn. }
    split.
    + intros H1.
      assert (num n - num (lev s1 s2) == num n)%Q as H.
      { rewrite <-(Qmult_1_l (num n)) at 2. rewrite <-H1.
        unfold Qdiv. rewrite <-Qmult_assoc, (Qmult_comm (/ num n)).
        by rewrite Qmult_inv_r, Qmult_1_r. }
      unfold num, Qeq in H. simpl in H. lia.
    + intros ->. unfold Qminus. change (- num 0)%Q with 0%Q.
      rewrite Qplus_0_r. by apply Qmult_inv_r.
Qed.

Lemma calculateLineSimilarity_comm (s1 s2 : jsstring) :
  calculateLineSimilarity s1 s2 = calculateLineSimilarity s2 s1.
Proof.
  rewrite !calculateLineSimilarity_Some. simpl.
  by rewrite (Nat.max_comm (length s2)), (lev_sym s2 s1).
Qed.

(** X3.  The line similarity does not depend on the order of the two
    strings, and it is 1 exactly when the two strings are equal. *)
Theorem calculateLineSimilarity_symmetric_identity (s1 s2 : jsstring) :
  calculateLineSimilarity s1 s2 = calculateLineSimilarity s2 s1 ∧
  ∃ sim, calculateLineSimilarity s1 s2 = Some sim ∧
         ((sim == 1)%Q ↔ s1 = s2).
Proof.
  split; [apply calculateLineSimilarity_comm|].
  apply calculateLineSimilarity_one_iff.
Qed.

(** ** Records of copied lines *)

Lemma calculateLineMatchData_matched_iff (content1 content2 : jsstring)
    (matchData : list LineMatch) :
  calculateLineMatchData content1 content2 = Some matchData →
  Forall (λ d, matched d = true ↔ (0.8 <= similarity d)%Q) matchData.
Proof.
  intros Heq.
  destruct (calculateLineMatchData_records content1 content2)
    as (matchData' & Heq' & Hlen & Hrec).
  assert (matchData' = matchData) as -> by congruence.
  apply Forall_lookup. intros index d Hd.
  assert (is_Some (splitLines content1 !! index)) as [line1 Hline1].
  { apply lookup_lt_is_Some. rewrite <-Hlen. by eapply lookup_lt_Some. }
  destruct (Hrec index line1 Hline1) as (d' & Hd' & _ & Hempty & Hfull).
  assert (d' = d) as -> by congruence.
  destruct (decide (trim line1 = [])) as [Hnil|Hne].
  - destruct (Hempty Hnil) as [-> ->]. split; [done|]. intros H. lra.
  - by apply (compared_bounds _ _ _ (Hfull Hne)).
Qed.

Lemma copied_line_record (trimmed1 : jsstring) (lines2 : list jsstring)
    (st : Q * bool) :
  compared trimmed1 lines2 st →
  ((st.1 == 1)%Q ↔ ∃ line2, line2 ∈ lines2 ∧ trim line2 ≠ [] ∧
                            trim line2 = trimmed1) ∧
  ((st.1 == 1)%Q → st.2 = true).
Proof.
  intros Hst. pose proof (compared_bounds _ _ _ Hst) as [H1 Hmatched].
  destruct Hst as (H0 & Hub & Hatt & Hh). split; [split|].
  - intros Hone. destruct Hatt as [(l & q & Hl & Hne & Hq & Heq)|[_ Hm]];
      [|lra].
    exists l. split; [done|]. split; [done|].
    destruct (calculateLineSimilarity_one_iff trimmed1 (trim l))
      as (q' & Hq' & Hiff).
    assert (q' = q) as -> by congruence. symmetry. apply Hiff. lra.
  - intros (l & Hl & Hne & Heq).
    destruct (calculateLineSimilarity_one_iff trimmed1 (trim l))
      as (q & Hq & Hiff).
    specialize (Hub l q Hl Hne Hq).
    assert (q == 1)%Q as Hq1 by (by apply Hiff). lra.
  - intros Hone. apply Hmatched. lra.
Qed.

(** X4.  A line of the reference submission that is not blank has
    similarity 1 exactly when some line of the other submission has the same
    text up to the white space around it, and then the line is matched. *)
Theorem copied_line_similarity (content1 content2 : jsstring) :
  ∃ matchData,
    calculateLineMatchData content1 content2 = Some matchData ∧
    ∀ index line1,
      splitLines content1 !! index = Some line1 → trim line1 ≠ [] →
      ∃ d, matchData !! index = Some d ∧
        ((similarity d == 1)%Q ↔
           ∃ line2, line2 ∈ splitLines content2 ∧ trim line2 = trim line1) ∧
        ((similarity d == 1)%Q → matched d = true).
Proof.
  destruct (calculateLineMatchData_records content1 content2)
    as (matchData & Heq & _ & Hrec).
  exists matchData. split; [done|]. intros index line1 Hline1 Hne.
  destruct (Hrec index line1 Hline1) as (d & Hd & _ & _ & Hfull).
  exists d. split; [done|].
  destruct (copied_line_record _ _ _ (Hfull Hne)) as [Hiff Hmatched].
  simpl in *. split; [|done]. rewrite Hiff. split.
  - intros (l & Hl & _ & Hsame). eauto.
  - intros (l & Hl & Hsame). exists l.
    split; [done|]. split; [congruence|done].
Qed.

(** ** A submission compared with itself *)

Lemma countLine_one (ranges : Ranges) (d : LineMatch) :
  (similarity d == 1)%Q →
  countLine ranges d =
    Build_Ranges (exact ranges + 1) (high ranges) (medium ranges)
                 (low ranges) (none ranges).
Proof.
  intros H. destruct ranges. unfold countLine.
  assert (Qle_bool 0.9 (similarity d) = true) as ->; [|done].
  apply Qle_bool_iff. lra.
Qed.

Lemma countLine_zero (ranges : Ranges) (d : LineMatch) :
  (similarity d == 0)%Q →
  countLine ranges d =
    Build_Ranges (exact ranges) (high ranges) (medium ranges)
                 (low ranges) (none ranges + 1).
Proof.
  intros H. destruct ranges. unfold countLine.
  assert (Qle_bool 0.9 (similarity d) = false) as ->
    by (apply Qle_bool_false; lra).
  assert (Qle_bool 0.7 (similarity d) = false) as ->
    by (apply Qle_bool_false; lra).
  assert (Qle_bool 0.4 (similarity d) = false) as ->
    by (apply Qle_bool_false; lra).
  assert (Qgtb (similarity d) 0 = false) as ->; [|done].
  apply Qgtb_false. lra.
Qed.

Lemma self_comparison_counts (lines : list jsstring)
    (matchData : list LineMatch) (ranges : Ranges) :
  Forall2 (λ (line : jsstring) d,
             (trim line ≠ [] → (similarity d == 1)%Q ∧ matched d = true) ∧
             (trim line = [] → (similarity d == 0)%Q ∧ matched d = false))
          lines matchData →
  foldl countLine ranges matchData =
    Build_Ranges
      (exact ranges + length (filter (λ line, trim line ≠ []) lines))
      (high ranges) (medium ranges) (low ranges)
      (none ranges + length (filter (λ line, trim line = []) lines)) ∧
  matchedLines matchData = length (filter (λ line, trim line ≠ []) lines).
Proof.
  intros H. revert ranges.
  induction H as [|line d lines matchData [Hfull Hblank] _ IH]; intros ranges.
  - simpl. destruct ranges. simpl. split; [|done]. f_equal; lia.
  - simpl. unfold matchedLines in *.
    destruct (decide (trim line = [])) as [Hnil|Hne].
    + destruct (Hblank Hnil) as [Hsim Hmatched].
      rewrite countLine_zero by done.
      destruct (IH (Build_Ranges (exact ranges) (high ranges) (medium ranges)
                      (low ranges) (none ranges + 1))) as [-> Hm].
      rewrite (filter_cons_True (λ line, trim line = [])) by done.
      rewrite (filter_cons_False (λ line, trim line ≠ []))
        by (intros Hne; by apply Hne).
      rewrite (filter_cons_False (λ d, matched d = true)) by congruence.
      simpl. split; [f_equal; lia|done].
    + destruct (Hfull Hne) as [Hsim Hmatched].
      rewrite countLine_one by done.
      destruct (IH (Build_Ranges (exact ranges + 1) (high ranges)
                      (medium ranges) (low ranges) (none ranges))) as [-> Hm].
      rewrite (filter_cons_False (λ line, trim line = [])) by done.
      rewrite (filter_cons_True (λ line, trim line ≠ [])) by done.
      rewrite (filter_cons_True (λ d, matched d = true)) by done.
      simpl. split; [f_equal; lia|by rewrite Hm].
Qed.

(** X5.  When a submission is compared with itself, every line that is not
    blank has similarity 1 and is matched, and every blank line has
    similarity 0 and is not: the distribution counts the lines that are not
    blank as exact and the blank ones as none, and no line as high, medium
    or low. *)
Theorem self_comparison (content : jsstring) :
  ∃ matchData ranges,
    calculateLineMatchData content content = Some matchData ∧
    (∀ index line, splitLines content !! index = Some line →
       ∃ d, matchData !! index = Some d ∧
            (trim line ≠ [] → (similarity d == 1)%Q ∧ matched d = true) ∧
            (trim line = [] → (similarity d == 0)%Q ∧ matched d = false)) ∧
    calculateSimilarityDistribution content content = Some ranges ∧
    exact ranges = length (filter (λ line, trim line ≠ []) (splitLines content)) ∧
    high ranges = 0 ∧ medium ranges = 0 ∧ low ranges = 0 ∧
    none ranges = length (filter (λ line, trim line = []) (splitLines content)) ∧
    matchedLines matchData = exact ranges.
Proof.
  destruct (calculateLineMatchData_records content content)
    as (matchData & Heq & Hlen & Hrec).
  assert (∀ index line, splitLines content !! index = Some line →
    ∃ d, matchData !! index = Some d ∧
         (trim line ≠ [] → (similarity d == 1)%Q ∧ matched d = true) ∧
         (trim line = [] → (similarity d == 0)%Q ∧ matched d = false))
    as Hlines.
  { intros index line Hline.
    destruct (Hrec index line Hline) as (d & Hd & _ & Hempty & Hfull).
    exists d. split; [done|]. split.
    - intros Hne.
      destruct (copied_line_record _ _ _ (Hfull Hne)) as [Hiff Hmatched].
      simpl in *. assert (similarity d == 1)%Q as Hone; [|by auto].
      apply Hiff. exists line. split; [|done].
      by eapply list_elem_of_lookup_2.
    - intros Hnil. by destruct (Hempty Hnil) as [-> ->]. }
  destruct (self_comparison_counts (splitLines content) matchData
              (Build_Ranges 0 0 0 0 0)) as [Hranges Hmatched].
  { apply Forall2_same_length_lookup_2; [done|].
    intros index line d Hline Hd.
    destruct (Hlines index line Hline) as (d' & Hd' & H).
    by assert (d' = d) as -> by congruence. }
  exists matchData, (distributionOf matchData).
  split; [done|]. split; [done|].
  split; [unfold calculateSimilarityDistribution; by rewrite Heq|].
  unfold distributionOf. rewrite Hranges. simpl. by rewrite Hmatched.
Qed.

(** ** The summary beside the distribution *)

Lemma matched_between_buckets (matchData : list LineMatch) (ranges : Ranges) :
  Forall (λ d, matched d = true ↔ (0.8 <= similarity d)%Q) matchData →
  ∃ e h,
    exact (foldl countLine ranges matchData) = exact ranges + e ∧
    high (foldl countLine ranges matchData) = high ranges + h ∧
    e ≤ matchedLines matchData ∧ matchedLines matchData ≤ e + h.
Proof.
  intros H. revert ranges. unfold matchedLines.
  induction H as [|d l Hd _ IH]; intros ranges.
  - exists 0, 0. simpl. lia.
  - simpl. destruct (IH (countLine ranges d)) as (e & h & -> & -> & He & Hh).
    destruct ranges as [e0 h0 m0 l0 n0]. unfold countLine. simpl.
    destruct (Qle_bool 0.9 _) eqn:E9;
      [apply Qle_bool_iff in E9|apply Qle_bool_false in E9;
       destruct (Qle_bool 0.7 _) eqn:E7;
       [apply Qle_bool_iff in E7|apply Qle_bool_false in E7]].
    + rewrite filter_cons_True by (apply Hd; lra).
      exists (S e), h. simpl. lia.
    + exists e, (S h). simpl.
      destruct (decide (matched d = true));
        [rewrite filter_cons_True by done|rewrite filter_cons_False by done];
        simpl; lia.
    + rewrite filter_cons_False by (intros Hm; apply Hd in Hm; lra).
      exists e, h.
      destruct (Qle_bool 0.4 _); [simpl; lia|].
      destruct (Qgtb _ 0); simpl; lia.
Qed.

(** X6.  The matched lines are the records of similarity 0.8 or more, so
    their number lies between the exact count of the distribution and the
    sum of its exact and high counts. *)
Theorem matchedLines_between_buckets (content1 content2 : jsstring) :
  ∃ matchData ranges,
    calculateLineMatchData content1 content2 = Some matchData ∧
    calculateSimilarityDistribution content1 content2 = Some ranges ∧
    (∀ d, d ∈ matchData → matched d = true ↔ (0.8 <= similarity d)%Q) ∧
    exact ranges ≤ matchedLines matchData ∧
    matchedLines matchData ≤ exact ranges + high ranges.
Proof.
  destruct (calculateLineMatchData_records content1 content2)
    as (matchData & Heq & _).
  pose proof (calculateLineMatchData_matched_iff _ _ _ Heq) as Hiff.
  exists matchData, (distributionOf matchData).
  split; [done|].
  split; [unfold calculateSimilarityDistribution; by rewrite Heq|].
  split; [by apply Forall_forall|].
  destruct (matched_between_buckets matchData (Build_Ranges 0 0 0 0 0) Hiff)
    as (e & h & He & Hh & Hle & Hge).
  unfold distributionOf. rewrite He, Hh. simpl. lia.
Qed.

Lemma matchedLines_le_totalLines (lineMatchData : list LineMatch) :
  matchedLines lineMatchData ≤ totalLines lineMatchData.
Proof. apply length_filter. Qed.

(** X7.  For every sequence of records the number of matched lines is at
    most the number of lines, the number of unique lines is the rest and is
    not negative, and the match percentage lies between 0 and 100. *)
Theorem summary_bounds (lineMatchData : list LineMatch) :
  matchedLines lineMatchData ≤ totalLines lineMatchData ∧
  (0 <= uniqueLines lineMatchData)%Z ∧
  (Z.of_nat (matchedLines lineMatchData) + uniqueLines lineMatchData
     = Z.of_nat (totalLines lineMatchData))%Z ∧
  ∃ p, matchPercentage lineMatchData = Some p ∧
       (0 <= p)%Q ∧ (p <= 100)%Q ∧
       (0 <= 100 - p)%Q ∧ (100 - p <= 100)%Q.
Proof.
  pose proof (matchedLines_le_totalLines lineMatchData) as Hle.
  split; [done|]. unfold uniqueLines. split; [lia|]. split; [lia|].
  destruct (decide (totalLines lineMatchData = 0)) as [H0|Hne].
  - exists 0%Q. split; [|lra]. unfold matchPercentage. by rewrite H0.
  - rewrite matchPercentage_division by done. eexists; split; [done|].
    destruct (ratio_bounds (num (matchedLines lineMatchData))
                (num (totalLines lineMatchData)))
      as [Hlow Hhigh]; [apply num_nonneg|by apply num_le|by apply num_pos|].
    lra.
Qed.

(** ** The heatmap, the trend graph and the rendered text *)

Lemma heatmap_counts (lineMatchData : list LineMatch) (ranges : Ranges) :
  let count c := length (filter (λ x, x = c) (heatmap lineMatchData)) in
  let ranges' := foldl countLine ranges lineMatchData in
  exact ranges' = exact ranges + count "bg-red-600" ∧
  high ranges' = high ranges + count "bg-orange-500" ∧
  medium ranges' = medium ranges + count "bg-yellow-500" ∧
  low ranges' = low ranges + count "bg-blue-400" ∧
  none ranges' = none ranges + count "bg-green-500".
Proof.
  simpl. revert ranges.
  induction lineMatchData as [|d l IH]; intros ranges; simpl; [lia|].
  destruct (IH (countLine ranges d)) as (-> & -> & -> & -> & ->).
  rewrite !filter_cons. destruct ranges. unfold countLine, heatmapColor.
  destruct (Qle_bool 0.9 _); [|destruct (Qle_bool 0.7 _);
    [|destruct (Qle_bool 0.4 _); [|destruct (Qgtb _ 0)]]];
    repeat case_decide; try congruence; simpl; lia.
Qed.

(** X9.  The heatmap has one block per record, and it shows as many blocks
    of each colour as the distribution counts lines in the bucket of that
    colour. *)
Theorem heatmap_agrees_with_distribution (lineMatchData : list LineMatch) :
  let count c := length (filter (λ x, x = c) (heatmap lineMatchData)) in
  let ranges := distributionOf lineMatchData in
  length (heatmap lineMatchData) = totalLines lineMatchData ∧
  count "bg-red-600" = exact ranges ∧
  count "bg-orange-500" = high ranges ∧
  count "bg-yellow-500" = medium ranges ∧
  count "bg-blue-400" = low ranges ∧
  count "bg-green-500" = none ranges.
Proof.
  simpl. split; [apply length_map|].
  destruct (heatmap_counts lineMatchData (Build_Ranges 0 0 0 0 0))
    as (He & Hh & Hm & Hl & Hn).
  unfold distributionOf. rewrite He, Hh, Hm, Hl, Hn. done.
Qed.

Lemma splitLines_single (s : jsstring) :
  LF ∉ s → length (splitLines s) = 1.
Proof.
  intros H. rewrite splitLines_length. f_equal.
  induction s as [|c s IH]; [done|].
  rewrite filter_cons_False; [apply IH|]; set_solver.
Qed.

Lemma splitLines_several (s : jsstring) :
  LF ∈ s → 1 < length (splitLines s).
Proof.
  intros H. rewrite splitLines_length.
  assert (LF ∈ filter (λ c, c = LF) s) as Hin
    by (by apply list_elem_of_filter).
  destruct (filter _ s); [by apply elem_of_nil in Hin|simpl; lia].
Qed.

Lemma trendPoints_lookup (lineMatchData : list LineMatch) (index : nat) :
  trendPoints lineMatchData !! index =
    trendPoint lineMatchData index <$> lineMatchData !! index.
Proof. apply list_lookup_imap. Qed.

(** X10.  For a reference submission of one line the only point of the trend
    graph has no horizontal coordinate, the quotient being 0 by 0.  For more
    lines every point is defined: the horizontal coordinate of the record at
    [index] is [index / (length - 1) * 100], from 0 for the first record to
    100 for the last, and the vertical coordinate lies between 0 and 100. *)
Theorem trend_graph_points (content1 content2 : jsstring) :
  ∃ matchData,
    calculateLineMatchData content1 content2 = Some matchData ∧
    (LF ∉ content1 →
       ∃ d, matchData = [d] ∧
            trendPoints matchData = [(None, (100 - similarity d * 100)%Q)]) ∧
    (LF ∈ content1 →
       ∀ index d, matchData !! index = Some d →
         ∃ x, trendPoints matchData !! index
                = Some (Some x, (100 - similarity d * 100)%Q) ∧
              (x == num index / (num (length matchData) - 1) * 100)%Q ∧
              (0 <= x)%Q ∧ (x <= 100)%Q ∧
              (index = 0 → (x == 0)%Q) ∧
              (index = length matchData - 1 → (x == 100)%Q)) ∧
    (∀ x y, (x, y) ∈ trendPoints matchData → (0 <= y)%Q ∧ (y <= 100)%Q).
Proof.
  destruct (calculateLineMatchData_records content1 content2)
    as (matchData & Heq & Hlen & _).
  pose proof (calculateLineMatchData_valid _ _ _ Heq) as Hvalid.
  exists matchData. split; [done|]. split; [|split].
  - intros Hno. rewrite splitLines_single in Hlen by done.
    destruct matchData as [|d [|d' l]]; try done.
    by exists d.
  - intros Hsome index d Hd. apply splitLines_several in Hsome.
    rewrite <-Hlen in Hsome. pose proof (lookup_lt_Some _ _ _ Hd) as Hindex.
    rewrite trendPoints_lookup, Hd. simpl. unfold trendPoint.
    assert (num (length matchData) - 1 == num (length matchData - 1))%Q
      as Hpred.
    { unfold num, Qeq, Qminus, Qplus. simpl. lia. }
    assert (0 < num (length matchData) - 1)%Q as Hpos.
    { rewrite Hpred. apply num_pos. lia. }
    unfold divide. destruct (Qeq_bool _ 0) eqn:E.
    { apply Qeq_bool_eq in E. lra. }
    simpl. eexists; split; [done|]. split; [done|].
    destruct (ratio_bounds (num index) (num (length matchData) - 1))
      as [Hlow Hhigh]; [apply num_nonneg| |done|].
    { rewrite Hpred. apply num_le. lia. }
    split; [lra|]. split; [lra|]. split.
    + intros ->. unfold Qdiv. change (num 0) with 0%Q. lra.
    + intros ->. rewrite <-Hpred, ratio_self by done. lra.
  - intros x y [index Hpoint]%list_elem_of_lookup.
    rewrite trendPoints_lookup in Hpoint.
    destruct (matchData !! index) as [d|] eqn:Hd; [|done].
    simpl in Hpoint. injection Hpoint as _ <-.
    rewrite Forall_lookup in Hvalid. destruct (Hvalid index d Hd). lra.
Qed.

Lemma splitFrom_nonempty (sep : N) (field s : jsstring) :
  1 ≤ length (splitFrom sep field s).
Proof. rewrite splitFrom_length. lia. Qed.

Lemma rendered_splitFrom (field s : jsstring) :
  renderedText (splitFrom LF field s) = field ++ s.
Proof.
  unfold renderedText. revert field.
  induction s as [|c s IH]; intros field; simpl.
  - unfold renderedLine. simpl. by rewrite !app_nil_r.
  - destruct (N.eqb_spec c LF) as [->|Hne]; [|by rewrite IH, <-app_assoc].
    rewrite imap_cons. simpl.
    pose proof (splitFrom_nonempty LF [] s) as Hlen.
    unfold renderedLine at 1. simpl. rewrite Nat.sub_0_r.
    destruct (0 <? _) eqn:E; [|apply Nat.ltb_ge in E; lia].
    rewrite <-app_assoc. simpl. do 2 f_equal.
    etrans; [|apply (IH [])]. f_equal.
    apply imap_ext. intros i line _. simpl. unfold renderedLine. simpl.
    rewrite Nat.sub_0_r. f_equal.
    destruct (S i <? _) eqn:E1, (i <? _) eqn:E2; try done;
      [apply Nat.ltb_lt in E1; apply Nat.ltb_ge in E2
      |apply Nat.ltb_ge in E1; apply Nat.ltb_lt in E2]; lia.
Qed.

Lemma splitFrom_no_separator (sep : N) (field s : jsstring) :
  sep ∉ field → Forall (λ line, sep ∉ line) (splitFrom sep field s).
Proof.
  revert field. induction s as [|c s IH]; intros field Hfield; simpl.
  - by constructor.
  - destruct (N.eqb_spec c sep) as [->|Hne].
    + constructor; [done|]. apply IH. by intros H%elem_of_nil.
    + apply IH. rewrite elem_of_snoc. intros [|]; congruence.
Qed.

(** X11.  Splitting a text into lines loses nothing: no line holds a line
    feed, and the lines that [highlightMatches] renders, each followed by a
    line feed except the last, spell the text again. *)
Theorem rendered_text_round_trip (text : jsstring) :
  renderedText (splitLines text) = text ∧
  Forall (λ line, LF ∉ line) (splitLines text).
Proof.
  split; [apply (rendered_splitFrom [] text)|].
  apply splitFrom_no_separator. by intros H%elem_of_nil.
Qed.

(** ** Tokens *)

Lemma splitWhiteSpaceFrom_fields (s field : jsstring) (inRun : bool)
    (f : jsstring) (c : N) :
  f ∈ splitWhiteSpaceFrom field inRun s → c ∈ f →
  c ∈ field ∨ (c ∈ s ∧ isWhiteSpace c = false).
Proof.
  revert field inRun. induction s as [|c0 s IH]; intros field inRun; simpl.
  - intros ->%list_elem_of_singleton Hc. by left.
  - destruct (isWhiteSpace c0) eqn:E0.
    + intros Hf Hc.
      assert (f ∈ splitWhiteSpaceFrom [] true s →
              c ∈ c0 :: s ∧ isWhiteSpace c = false) as Hrest.
      { intros Hf'. destruct (IH _ _ Hf' Hc) as [[]%elem_of_nil|[Hin Hws]].
        split; [by right|done]. }
      destruct inRun; [by right; apply Hrest|].
      apply elem_of_cons in Hf as [->|Hf]; [by left|by right; apply Hrest].
    + intros Hf Hc.
      destruct (IH _ _ Hf Hc) as [[Hin| ->]%elem_of_snoc|[Hin Hws]].
      * by left.
      * right. split; [by left|done].
      * right. split; [by right|done].
Qed.

Lemma blankSpecialChars_chars (s : jsstring) (c : N) :
  c ∈ blankSpecialChars s → isTokenChar c = true.
Proof.
  unfold blankSpecialChars. intros (c' & -> & _)%list_elem_of_fmap.
  by destruct (isTokenChar c') eqn:E.
Qed.

Section Tokens.

Variable toLowerCase : jsstring → jsstring.

(** X12.  Whatever the text, every token that [tokenize] returns is longer
    than two code units and consists of the letters a to z and the digits 0
    to 9 only. *)
Theorem tokenize_tokens (s : jsstring) :
  Forall (λ token : jsstring,
            2 < length token ∧
            Forall (λ c, (97 ≤ c ≤ 122)%N ∨ (48 ≤ c ≤ 57)%N) token)
         (tokenize toLowerCase s).
Proof.
  apply Forall_forall. intros token [Hlen Hin]%list_elem_of_filter.
  split; [done|]. apply Forall_forall. intros c Hc.
  destruct (splitWhiteSpaceFrom_fields _ _ _ _ _ Hin Hc)
    as [[]%elem_of_nil|[Hblank Hws]].
  apply blankSpecialChars_chars in Hblank. unfold isTokenChar in Hblank.
  rewrite Hws, orb_false_r in Hblank.
  apply orb_true_iff in Hblank as [H|H];
    apply andb_true_iff in H as [H1%N.leb_le H2%N.leb_le]; [by left|by right].
Qed.

End Tokens.

Lemma Qdiv_eq_iff (a b c : Q) :
  (0 < b)%Q → ((a / b == c)%Q ↔ (a == c * b)%Q).
Proof.
  intros Hb. assert (¬ (b == 0)%Q) as Hb0.
  { intros E. rewrite E in Hb. by apply Qlt_irrefl in Hb. }
  split; intros H.
  - rewrite <-H, Qmult_comm. by rewrite Qmult_div_r.
  - rewrite H. by apply Qdiv_mult_l.
Qed.

Lemma num_eq (a b : nat) : (num a == num b)%Q ↔ a = b.
Proof. unfold num, Qeq. simpl. lia. Qed.

Lemma calculateTokenSimilarity_zero_one (tokens1 tokens2 : list jsstring) :
  ∃ q, calculateTokenSimilarity tokens1 tokens2 = Some q ∧
       ((q == 0)%Q ↔ ∀ x, x ∈ tokens1 → x ∉ tokens2) ∧
       ((q == 1)%Q ↔ tokens1 ≠ [] ∧ ∀ x, x ∈ tokens1 ↔ x ∈ tokens2).
Proof.
  rewrite calculateTokenSimilarity_Some. simpl.
  assert (∀ x, x ∈ (list_to_set tokens1 : gset jsstring) ↔ x ∈ tokens1)
    as H1 by (intros; apply elem_of_list_to_set).
  assert (∀ x, x ∈ (list_to_set tokens2 : gset jsstring) ↔ x ∈ tokens2)
    as H2 by (intros; apply elem_of_list_to_set).
  revert H1 H2.
  generalize (list_to_set tokens1 : gset jsstring).
  generalize (list_to_set tokens2 : gset jsstring).
  intros Y X H1 H2.
  destruct (0 <? size (X ∪ Y)) eqn:E;
    [apply Nat.ltb_lt in E|apply Nat.ltb_ge in E].
  - eexists; split; [done|].
    assert (0 < num (size (X ∪ Y)))%Q as Hpos by (apply num_pos; lia).
    rewrite !Qdiv_eq_iff by done. rewrite Qmult_0_l, Qmult_1_l.
    change 0%Q with (num 0). rewrite !num_eq. split.
    + rewrite size_empty_iff, elem_of_equiv_empty. split.
      * intros Hempty x Hx1%H1 Hx2%H2. apply (Hempty x).
        by apply elem_of_intersection.
      * intros Hdisj x [Hx1%H1 Hx2%H2]%elem_of_intersection.
        by apply (Hdisj x).
    + split.
      * intros Hsize.
        assert (X ∩ Y = X ∪ Y) as Heq.
        { apply set_subseteq_size_eq; [|lia]. intros x.
          rewrite elem_of_intersection, elem_of_union. tauto. }
        assert (∀ x, x ∈ X ↔ x ∈ Y) as Hsame.
        { intros x. assert (x ∈ X ∩ Y ↔ x ∈ X ∪ Y) as H by (by rewrite Heq).
          rewrite elem_of_intersection, elem_of_union in H. tauto. }
        split.
        -- intros ->. apply size_pos_elem_of in E as [x Hx].
           apply elem_of_union in Hx as [Hx|Hx%Hsame];
             apply H1 in Hx; by apply elem_of_nil in Hx.
        -- intros x. by rewrite <-H1, <-H2.
      * intros [_ Hsame]. f_equal. apply set_eq. intros x.
        rewrite elem_of_intersection, elem_of_union, H1, H2, Hsame. tauto.
  - exists 0%Q. split; [done|].
    assert (X ∪ Y = ∅) as Hempty by (apply leibniz_equiv, size_empty_iff; lia).
    assert (∀ x, x ∉ tokens1) as Hnone.
    { intros x Hx%H1. apply (not_elem_of_empty (C := gset jsstring) x).
      rewrite <-Hempty. apply elem_of_union. by left. }
    split; [split; [|done]|split; [intros H; by inversion H|]].
    + intros _ x Hx. by destruct (Hnone x).
    + intros [Hne _]. destruct tokens1 as [|x l]; [done|].
      destruct (Hnone x). by left.
Qed.

(** X13.  The Jaccard score of two token lists is 0 exactly when they share
    no token, and 1 exactly when they are not empty and hold the same tokens,
    whatever the order and the repetitions. *)
Theorem calculateTokenSimilarity_extremes (tokens1 tokens2 : list jsstring) :
  ∃ q, calculateTokenSimilarity tokens1 tokens2 = Some q ∧
       ((q == 0)%Q ↔ ∀ x, x ∈ tokens1 → x ∉ tokens2) ∧
       ((q == 1)%Q ↔ tokens1 ≠ [] ∧ ∀ x, x ∈ tokens1 ↔ x ∈ tokens2).
Proof.
  apply calculateTokenSimilarity_zero_one.
Qed.

(** ** The exact-or-containment similarity *)

Lemma contains_same_length (s t : jsstring) :
  contains s t → length s = length t → s = t.
Proof.
  intros (pre & post & ->). rewrite !length_app. intros Hlen.
  destruct pre; [|simpl in Hlen; lia]. destruct post; [|simpl in Hlen; lia].
  by rewrite app_nil_r.
Qed.

Lemma Qle_div_iff (a b c : Q) :
  (0 < b)%Q → ((c <= a / b)%Q ↔ (c * b <= a)%Q).
Proof.
  intros Hb. assert (¬ (b == 0)%Q) as Hb0.
  { intros E. rewrite E in Hb. by apply Qlt_irrefl in Hb. }
  split; intros H.
  - apply (Qmult_le_r _ _ b) in H; [|done].
    by rewrite (Qmult_comm (a / b)), Qmult_div_r in H.
  - by apply Qle_shift_div_l.
Qed.

Section ExactSimilarity.

Variable toLowerCase : jsstring → jsstring.

Lemma calculateExactSimilarity_comm (str1 str2 : jsstring) :
  calculateExactSimilarity toLowerCase str1 str2 =
  calculateExactSimilarity toLowerCase str2 str1.
Proof.
  unfold calculateExactSimilarity. simpl.
  rewrite (orb_comm (includes (normalize toLowerCase str2) _)).
  rewrite (Nat.min_comm (length (normalize toLowerCase str2))).
  rewrite (Nat.max_comm (length (normalize toLowerCase str2))).
  repeat case_decide; congruence.
Qed.

(** X14.  The exact-or-containment similarity does not depend on the order
    of the two lines; it is 1 exactly when the normalized lines are
    identical, and it reaches 0.80 exactly when they are identical or one
    contains the other and is at least four fifths as long. *)
Theorem calculateExactSimilarity_symmetric_threshold (str1 str2 : jsstring) :
  let norm1 := normalize toLowerCase str1 in
  let norm2 := normalize toLowerCase str2 in
  calculateExactSimilarity toLowerCase str1 str2 =
    calculateExactSimilarity toLowerCase str2 str1 ∧
  ∃ exactSim,
    calculateExactSimilarity toLowerCase str1 str2 = Some exactSim ∧
    ((exactSim == 1)%Q ↔ norm1 = norm2) ∧
    ((0.80 <= exactSim)%Q ↔
       norm1 = norm2 ∨
       (contains norm1 norm2 ∨ contains norm2 norm1) ∧
       4 * (length norm1 `max` length norm2)
         ≤ 5 * (length norm1 `min` length norm2)).
Proof.
  simpl. split; [apply calculateExactSimilarity_comm|].
  unfold calculateExactSimilarity. simpl.
  set (norm1 := normalize toLowerCase str1).
  set (norm2 := normalize toLowerCase str2).
  case_decide as Hne.
  { exists 1%Q. split; [done|]. split; [done|]. split; [by left|done]. }
  destruct (includes _ _ || includes _ _) eqn:E.
  - assert (contains norm1 norm2 ∨ contains norm2 norm1) as Hcontains.
    { apply orb_true_iff in E as [E|E]; apply includes_contains in E; auto. }
    assert (length norm1 `max` length norm2 ≠ 0) as Hmax.
    { intros H0. apply Hne. destruct norm1, norm2; simpl in H0; by try lia. }
    assert (length norm1 ≠ length norm2) as Hlen.
    { intros Hlen. apply Hne.
      destruct Hcontains as [H|H];
        [|symmetry]; by apply contains_same_length. }
    rewrite divide_num by done. eexists; split; [done|].
    pose proof (num_pos _ Hmax) as Hpos. split.
    + rewrite Qdiv_eq_iff, Qmult_1_l, num_eq by done. split; [lia|done].
    + rewrite Qle_div_iff by done. split.
      * intros H. right. split; [done|].
        unfold num, Qle, Qmult in H. simpl in H. lia.
      * intros [?|[_ H]]; [done|]. unfold num, Qle, Qmult. simpl. lia.
  - exists 0%Q. split; [done|]. split; [split; [intros H; lra|done]|].
    split; [intros H; lra|].
    apply orb_false_iff in E as [E1 E2].
    intros [?|[[H|H] _]]; [done| |]; apply includes_contains in H; congruence.
Qed.

End ExactSimilarity.

(** ** What [highlightMatches] highlights *)

(** A loop that adds the index of a line or leaves the set as it is,
    according to a property of the line. *)
Lemma forEach_marks (body : gset nat → jsstring → nat → option (gset nat))
    (R : jsstring → Prop) (lines : list jsstring) (P0 : gset nat) :
  (∀ P line i, ∃ b : bool,
     body P line i = Some (if b then {[i]} ∪ P else P) ∧ (b = true ↔ R line)) →
  ∃ P, forEach body lines P0 = Some P ∧
       ∀ i, i ∈ P ↔ i ∈ P0 ∨ ∃ line, lines !! i = Some line ∧ R line.
Proof.
  intros Hbody. unfold forEach.
  apply (forEachFrom_invariant (λ done (P : gset nat),
    ∀ i, i ∈ P ↔ i ∈ P0 ∨ ∃ line, done !! i = Some line ∧ R line)).
  - intros i. split; [by left|]. intros [?|(line & H & _)]; [done|].
    by rewrite lookup_nil in H.
  - intros done x rest P _ HInv. simpl.
    destruct (Hbody P x (length done)) as (b & -> & Hb).
    eexists; split; [done|]. intros i.
    assert (i ∈ (if b then {[length done]} ∪ P else P) ↔
            i ∈ P ∨ (i = length done ∧ R x)) as ->.
    { destruct b.
      - rewrite elem_of_union, elem_of_singleton.
        assert (R x) by (by apply Hb). tauto.
      - assert (¬ R x) by (intros H%Hb; done). tauto. }
    rewrite HInv. split.
    + intros [[?|(line & Hline & HR)]|[-> HR]]; [by left| |].
      * right. exists line. split; [|done]. by apply lookup_app_l_Some.
      * right. exists x. split; [|done]. by apply list_lookup_middle.
    + intros [?|(line & Hline & HR)]; [by left; left|].
      apply lookup_snoc_Some in Hline as [[_ Hline]|[-> ->]];
        [left; right; eauto|by right].
Qed.

Lemma dynamicThreshold_antitone (score score' : Q) :
  (score <= score')%Q →
  (dynamicThreshold score' <= dynamicThreshold score)%Q.
Proof.
  intros Hle. unfold dynamicThreshold.
  destruct (Qle_bool 0.8 score) eqn:E8;
    [apply Qle_bool_iff in E8|apply Qle_bool_false in E8];
  destruct (Qle_bool 0.6 score) eqn:E6;
    [apply Qle_bool_iff in E6|apply Qle_bool_false in E6| |];
  try (apply Qle_bool_iff in E6); try (apply Qle_bool_false in E6);
  destruct (Qle_bool 0.4 score) eqn:E4;
  try (apply Qle_bool_iff in E4); try (apply Qle_bool_false in E4);
  destruct (Qle_bool 0.8 score') eqn:E8';
  try (apply Qle_bool_iff in E8'); try (apply Qle_bool_false in E8');
  destruct (Qle_bool 0.6 score') eqn:E6';
  try (apply Qle_bool_iff in E6'); try (apply Qle_bool_false in E6');
  destruct (Qle_bool 0.4 score') eqn:E4';
  try (apply Qle_bool_iff in E4'); try (apply Qle_bool_false in E4');
  try lra; by vm_compute.
Qed.

Section HighlightMatches.

Variable toLowerCase : jsstring → jsstring.

Lemma directMatchLine_marks (otherLines : list jsstring) (P : gset nat)
    (line : jsstring) (i : nat) :
  ∃ b : bool,
    directMatchLine toLowerCase otherLines P line i
      = Some (if b then {[i]} ∪ P else P) ∧
    (b = true ↔ directlyMatched toLowerCase otherLines line).
Proof.
  unfold directMatchLine, directlyMatched.
  destruct (length (trim line) =? 0) eqn:E.
  - apply length_eqb_0 in E. exists false. split; [done|].
    split; [done|]. by intros [? _].
  - assert (trim line ≠ []) as Hne.
    { intros Hnil. apply length_eqb_0 in Hnil. congruence. }
    destruct (findDirectMatch_found toLowerCase (trim line) otherLines)
      as (found & -> & Hfound).
    exists found. split; [done|]. rewrite Hfound. tauto.
Qed.

Lemma directlyMatched_otherLines (otherText line : jsstring) :
  directlyMatched toLowerCase
    (if length otherText =? 0 then [] else splitLines otherText) line ↔
  directlyMatched toLowerCase (splitLines otherText) line.
Proof.
  destruct otherText as [|c otherText]; [|done]. simpl.
  unfold directlyMatched. split; intros (Hne & l & q & Hl & Hl' & _).
  - by apply elem_of_nil in Hl.
  - by apply list_elem_of_singleton in Hl as ->.
Qed.

Lemma tokenMatchLine_marks (threshold : Q) (matchedText : jsstring)
    (P : gset nat) (line : jsstring) (i : nat) :
  trim matchedText ≠ [] → tokenize toLowerCase matchedText ≠ [] →
  ∃ b : bool,
    tokenMatchLine toLowerCase threshold (tokenize toLowerCase matchedText)
                   P line i = Some (if b then {[i]} ∪ P else P) ∧
    (b = true ↔ tokenMatched toLowerCase threshold matchedText line).
Proof.
  intros Htext Htokens. unfold tokenMatchLine, tokenMatched.
  destruct (length (trim line) =? 0) eqn:E.
  { apply length_eqb_0 in E. exists false. split; [done|].
    split; [done|]. by intros (_ & _ & ? & _). }
  assert (trim line ≠ []) as Hne.
  { intros Hnil. apply length_eqb_0 in Hnil. congruence. }
  destruct (length (tokenize toLowerCase (trim line)) =? 0) eqn:E'.
  { apply length_eqb_0 in E'. exists false. split; [done|].
    split; [done|]. by intros (_ & _ & _ & ? & _). }
  assert (tokenize toLowerCase (trim line) ≠ []) as Hne'.
  { intros Hnil. apply length_eqb_0 in Hnil. congruence. }
  destruct (calculateTokenSimilarity_bounds
              (tokenize toLowerCase (trim line))
              (tokenize toLowerCase matchedText)) as (sim & Hsim & _).
  rewrite Hsim. simpl. exists (Qle_bool threshold sim). split; [done|].
  rewrite Qle_bool_iff. split.
  - intros H. repeat (split; [done|]). by exists sim.
  - intros (_ & _ & _ & _ & sim' & Hsim' & H).
    by assert (sim' = sim) as -> by congruence.
Qed.

Lemma tokenMatchSegment_marks (isFirst : bool) (threshold : Q)
    (lines : list jsstring) (P : gset nat) (segment : MatchedSegment)
    (k : nat) :
  ∃ P', tokenMatchSegment toLowerCase isFirst threshold lines P segment k
          = Some P' ∧
        ∀ i, i ∈ P' ↔
          i ∈ P ∨
          ∃ line, lines !! i = Some line ∧
            tokenMatched toLowerCase threshold
              (if isFirst then text1 segment else text2 segment) line.
Proof.
  unfold tokenMatchSegment.
  set (matchedText := if isFirst then text1 segment else text2 segment).
  destruct ((length matchedText =? 0) || (length (trim matchedText) =? 0))
    eqn:E.
  { assert (trim matchedText = []) as Hnil.
    { apply orb_true_iff in E as [E|E]; apply length_eqb_0 in E; [|done].
      by rewrite E. }
    exists P. split; [done|]. intros i. split; [by left|].
    intros [?|(line & _ & ? & _)]; done. }
  assert (trim matchedText ≠ []) as Htext.
  { intros Hnil. apply orb_false_iff in E as [_ E].
    apply length_eqb_0 in Hnil. congruence. }
  destruct (length (tokenize toLowerCase matchedText) =? 0) eqn:E'.
  { apply length_eqb_0 in E'. exists P. split; [done|].
    intros i. split; [by left|].
    intros [?|(line & _ & _ & ? & _)]; done. }
  assert (tokenize toLowerCase matchedText ≠ []) as Htokens.
  { intros Hnil. apply length_eqb_0 in Hnil. congruence. }
  apply forEach_marks. intros P' line i. by apply tokenMatchLine_marks.
Qed.

Lemma highlightMatches_elem (overallScore : Q)
    (content1 content2 text : jsstring) (segments : list MatchedSegment)
    (isFirst : bool) :
  ∃ plagiarizedLines,
    highlightMatches toLowerCase overallScore content1 content2 text
      segments isFirst = Some plagiarizedLines ∧
    ∀ lineIndex, lineIndex ∈ plagiarizedLines ↔
      segments ≠ [] ∧
      ∃ line, splitLines text !! lineIndex = Some line ∧
        (directlyMatched toLowerCase
           (splitLines (if isFirst then content2 else content1)) line ∨
         ∃ segment, segment ∈ segments ∧
           tokenMatched toLowerCase (dynamicThreshold overallScore)
             (if isFirst then text1 segment else text2 segment) line).
Proof.
  unfold highlightMatches.
  destruct segments as [|segment0 segments'] eqn:Hsegments.
  { exists ∅. split; [done|]. intros i. split; [by intros H%not_elem_of_empty|].
    by intros [? _]. }
  rewrite <-Hsegments. replace (length segments =? 0) with false
    by (by rewrite Hsegments). simpl.
  destruct text as [|c text'] eqn:Htext.
  { exists ∅. split; [done|]. intros i. split; [by intros H%not_elem_of_empty|].
    intros (_ & line & Hline & H). destruct i; [|done].
    injection Hline as <-.
    destruct H as [[? _]|(_ & _ & _ & _ & ? & _)]; done. }
  rewrite <-Htext. replace (length text =? 0) with false by (by rewrite Htext).
  set (otherText := if isFirst then content2 else content1).
  unfold directLineMatching.
  destruct (forEach_marks
              (directMatchLine toLowerCase
                 (if length otherText =? 0 then [] else splitLines otherText))
              (directlyMatched toLowerCase
                 (if length otherText =? 0 then [] else splitLines otherText))
              (splitLines text) ∅) as (P1 & -> & HP1).
  { intros P line i. apply directMatchLine_marks. }
  simpl. unfold forEach.
  destruct (forEachFrom_invariant (λ done (P : gset nat),
    ∀ i, i ∈ P ↔
      i ∈ P1 ∨
      ∃ segment, segment ∈ done ∧
        ∃ line, splitLines text !! i = Some line ∧
          tokenMatched toLowerCase (dynamicThreshold overallScore)
            (if isFirst then text1 segment else text2 segment) line)
    (tokenMatchSegment toLowerCase isFirst (dynamicThreshold overallScore)
       (splitLines text)) segments 0 P1) as (P2 & -> & HP2).
  { intros i. split; [by left|].
    intros [?|(segment & Hin%elem_of_nil & _)]; done. }
  { intros done segment rest P _ HInv.
    destruct (tokenMatchSegment_marks isFirst (dynamicThreshold overallScore)
                (splitLines text) P segment (0 + length done))
      as (P' & -> & HP').
    eexists; split; [done|]. intros i. rewrite HP', HInv. split.
    - intros [[?|(seg & Hseg & H)]|H]; [by left| |].
      + right. exists seg. rewrite elem_of_snoc. tauto.
      + right. exists segment. rewrite elem_of_snoc. tauto.
    - intros [?|(seg & [Hseg| ->]%elem_of_snoc & H)];
        [by left; left|left; right; eauto|by right]. }
  exists P2. split; [done|]. intros i. rewrite HP2, HP1.
  split.
  - intros [[[]%not_elem_of_empty|(line & Hline & H)]|(seg & Hseg & line & Hline & H)];
      (split; [by rewrite Hsegments|]); exists line; (split; [done|]).
    + left. by apply directlyMatched_otherLines.
    + right. eauto.
  - intros (_ & line & Hline & [H|(seg & Hseg & H)]).
    + left. right. exists line. split; [done|].
      by apply directlyMatched_otherLines.
    + right. eauto.
Qed.

End HighlightMatches.

Section HighlightedLines.

Variable toLowerCase : jsstring → jsstring.

(** X15.  [highlightMatches] highlights nothing when there are no segments.
    Otherwise it highlights exactly the lines that have a direct match in the
    other submission (STEP 1) or a token match, at the dynamic threshold,
    with the text of some segment (STEP 2); every highlighted index is the
    index of a line of the text that is not blank. *)
Theorem highlightMatches_spec (overallScore : Q)
    (content1 content2 text : jsstring) (segments : list MatchedSegment)
    (isFirst : bool) :
  ∃ plagiarizedLines,
    highlightMatches toLowerCase overallScore content1 content2 text
      segments isFirst = Some plagiarizedLines ∧
    (∀ lineIndex, lineIndex ∈ plagiarizedLines ↔
       segments ≠ [] ∧
       ∃ line, splitLines text !! lineIndex = Some line ∧
         (directlyMatched toLowerCase
            (splitLines (if isFirst then content2 else content1)) line ∨
          ∃ segment, segment ∈ segments ∧
            tokenMatched toLowerCase (dynamicThreshold overallScore)
              (if isFirst then text1 segment else text2 segment) line)) ∧
    (∀ lineIndex, lineIndex ∈ plagiarizedLines →
       ∃ line, splitLines text !! lineIndex = Some line ∧ trim line ≠ []).
Proof.
  destruct (highlightMatches_elem toLowerCase overallScore content1 content2
              text segments isFirst) as (P & Heq & HP).
  exists P. split; [done|]. split; [done|].
  intros i (_ & line & Hline & H)%HP. exists line. split; [done|].
  by destruct H as [[? _]|(_ & _ & _ & _ & ? & _)].
Qed.

Lemma tokenMatched_threshold (threshold threshold' : Q)
    (matchedText line : jsstring) :
  (threshold' <= threshold)%Q →
  tokenMatched toLowerCase threshold matchedText line →
  tokenMatched toLowerCase threshold' matchedText line.
Proof.
  intros Hle (H1 & H2 & H3 & H4 & sim & Hsim & H).
  repeat (split; [done|]). exists sim. split; [done|]. lra.
Qed.

(** X16.  A higher overall score never raises the threshold, and never
    removes a highlighted line: the lines highlighted at a score are
    highlighted at every higher score. *)
Theorem highlightMatches_monotone (overallScore overallScore' : Q)
    (content1 content2 text : jsstring) (segments : list MatchedSegment)
    (isFirst : bool) :
  (overallScore <= overallScore')%Q →
  (dynamicThreshold overallScore' <= dynamicThreshold overallScore)%Q ∧
  ∃ plagiarizedLines plagiarizedLines',
    highlightMatches toLowerCase overallScore content1 content2 text
      segments isFirst = Some plagiarizedLines ∧
    highlightMatches toLowerCase overallScore' content1 content2 text
      segments isFirst = Some plagiarizedLines' ∧
    plagiarizedLines ⊆ plagiarizedLines'.
Proof.
  intros Hle. pose proof (dynamicThreshold_antitone _ _ Hle) as Hthreshold.
  split; [done|].
  destruct (highlightMatches_elem toLowerCase overallScore content1 content2
              text segments isFirst) as (P & Heq & HP).
  destruct (highlightMatches_elem toLowerCase overallScore' content1 content2
              text segments isFirst) as (P' & Heq' & HP').
  exists P, P'. split; [done|]. split; [done|].
  intros i (Hne & line & Hline & H)%HP. apply HP'. split; [done|].
  exists line. split; [done|].
  destruct H as [H|(seg & Hseg & H)]; [by left|right].
  exists seg. split; [done|]. by eapply tokenMatched_threshold.
Qed.

(** X17.  When there are segments, two lines of the two submissions whose
    exact-or-containment similarity is at least 0.80 are highlighted on both
    sides of the comparison. *)
Theorem direct_match_on_both_sides (overallScore : Q)
    (content1 content2 : jsstring) (segments : list MatchedSegment)
    (i j : nat) (line1 line2 : jsstring) (exactSim : Q) :
  segments ≠ [] →
  splitLines content1 !! i = Some line1 → trim line1 ≠ [] →
  splitLines content2 !! j = Some line2 → trim line2 ≠ [] →
  calculateExactSimilarity toLowerCase (trim line1) (trim line2)
    = Some exactSim →
  (0.80 <= exactSim)%Q →
  ∃ plagiarizedLines1 plagiarizedLines2,
    highlightMatches toLowerCase overallScore content1 content2 content1
      segments true = Some plagiarizedLines1 ∧
    highlightMatches toLowerCase overallScore content1 content2 content2
      segments false = Some plagiarizedLines2 ∧
    i ∈ plagiarizedLines1 ∧ j ∈ plagiarizedLines2.
Proof.
  intros Hsegments Hline1 Hne1 Hline2 Hne2 Hsim H8.
  destruct (highlightMatches_elem toLowerCase overallScore content1 content2
              content1 segments true) as (P1 & Heq1 & HP1).
  destruct (highlightMatches_elem toLowerCase overallScore content1 content2
              content2 segments false) as (P2 & Heq2 & HP2).
  exists P1, P2. split; [done|]. split; [done|]. split.
  - apply HP1. split; [done|]. exists line1. split; [done|]. left.
    split; [done|]. exists line2, exactSim.
    split; [by eapply list_elem_of_lookup_2|done].
  - apply HP2. split; [done|]. exists line2. split; [done|]. left.
    split; [done|]. exists line1, exactSim.
    split; [by eapply list_elem_of_lookup_2|].
    split; [done|]. by rewrite calculateExactSimilarity_comm.
Qed.

End HighlightedLines.

(** The theorems with hypotheses at concrete inputs. *)

Lemma highlightMatches_monotone_witness :
  (0.5 <= 0.9)%Q ∧
  ∃ plagiarizedLines plagiarizedLines',
    highlightMatches toLowerBasicLatin 0.5 threeLines twoLines threeLines
      sampleSegments true = Some plagiarizedLines ∧
    highlightMatches toLowerBasicLatin 0.9 threeLines twoLines threeLines
      sampleSegments true = Some plagiarizedLines' ∧
    plagiarizedLines ⊆ plagiarizedLines'.
Proof.
  assert (0.5 <= 0.9)%Q as H by (by vm_compute).
  split; [done|].
  apply (highlightMatches_monotone toLowerBasicLatin 0.5 0.9 threeLines
           twoLines threeLines sampleSegments true H).
Defined.

Lemma direct_match_on_both_sides_witness :
  ∃ plagiarizedLines1 plagiarizedLines2,
    highlightMatches toLowerBasicLatin 0.5 threeLines twoLines threeLines
      sampleSegments true = Some plagiarizedLines1 ∧
    highlightMatches toLowerBasicLatin 0.5 threeLines twoLines twoLines
      sampleSegments false = Some plagiarizedLines2 ∧
    2 ∈ plagiarizedLines1 ∧ 0 ∈ plagiarizedLines2.
Proof.
  apply (direct_match_on_both_sides toLowerBasicLatin 0.5 threeLines twoLines
           sampleSegments 2 0 (str "hello") (str "hello") 1%Q);
    by vm_compute.
Defined.

(** ** Indentation, thresholds and shared tokens *)

Lemma forEachFrom_ext {A St : Type} (body body' : St → A → nat → option St)
    (index : nat) (xs xs' : list A) (s : St) :
  Forall2 (λ x x', ∀ s i, body s x i = body' s x' i) xs xs' →
  forEachFrom body index xs s = forEachFrom body' index xs' s.
Proof.
  intros H. revert index s.
  induction H as [|x x' xs xs' Hx _ IH]; intros index s; [done|].
  simpl. rewrite Hx. destruct (body' s x' index); [apply IH|done].
Qed.

Lemma Forall2_same_trim (lines lines' : list jsstring) :
  trim <$> lines = trim <$> lines' →
  Forall2 (λ x x', trim x = trim x') lines lines'.
Proof.
  revert lines'. induction lines as [|x l IH]; intros [|x' l'] H;
    try done; constructor.
  - by injection H.
  - apply IH. by injection H.
Qed.

Lemma matchLine_same_trim (lines2 lines2' : list jsstring)
    (matchData : list LineMatch) (line1 line1' : jsstring) (index : nat) :
  trim <$> lines2 = trim <$> lines2' → trim line1 = trim line1' →
  matchLine lines2 matchData line1 index =
  matchLine lines2' matchData line1' index.
Proof.
  intros H2 H1. unfold matchLine, forEach. rewrite H1.
  assert (∀ st,
    forEachFrom (compareWithLine (trim line1')) 0 lines2 st =
    forEachFrom (compareWithLine (trim line1')) 0 lines2' st) as Hloop.
  { intros st. apply forEachFrom_ext.
    eapply Forall2_impl; [by apply Forall2_same_trim|].
    intros x x' Hx st' i. unfold compareWithLine. by rewrite Hx. }
  by rewrite Hloop.
Qed.

(** X18.  Lines are compared by their trimmed text only: two pairs of
    submissions whose lines agree up to the white space around each line get
    the same line-match records. *)
Theorem calculateLineMatchData_indentation
    (content1 content1' content2 content2' : jsstring) :
  trim <$> splitLines content1 = trim <$> splitLines content1' →
  trim <$> splitLines content2 = trim <$> splitLines content2' →
  calculateLineMatchData content1 content2 =
  calculateLineMatchData content1' content2'.
Proof.
  intros H1 H2. unfold calculateLineMatchData, forEach.
  apply forEachFrom_ext.
  eapply Forall2_impl; [by apply Forall2_same_trim|].
  intros x x' Hx matchData i. by apply matchLine_same_trim.
Qed.

Lemma calculateLineMatchData_indentation_witness :
  trim <$> splitLines threeLines = trim <$> splitLines indentedLines ∧
  calculateLineMatchData threeLines twoLines =
  calculateLineMatchData indentedLines twoLines.
Proof.
  assert (trim <$> splitLines threeLines = trim <$> splitLines indentedLines)
    as H by (by vm_compute).
  split; [done|].
  by apply (calculateLineMatchData_indentation threeLines indentedLines
              twoLines twoLines H).
Defined.

(** X19.  In whole numbers: the line similarity is at least 0.8, the bound
    of a match, exactly when five times the edit distance is at most the
    longer length, and at least 0.9, the bound of the exact bucket, exactly
    when ten times the edit distance is. *)
Theorem calculateLineSimilarity_thresholds (s1 s2 : jsstring) :
  ∃ editDistance sim,
    levenshteinDistance s1 s2 = Some editDistance ∧
    calculateLineSimilarity s1 s2 = Some sim ∧
    ((0.8 <= sim)%Q ↔ 5 * editDistance ≤ length s1 `max` length s2) ∧
    ((0.9 <= sim)%Q ↔ 10 * editDistance ≤ length s1 `max` length s2).
Proof.
  exists (lev s1 s2). rewrite levenshteinDistance_Some,
    calculateLineSimilarity_Some. simpl.
  pose proof (lev_le_max s1 s2) as Hhigh.
  destruct (_ =? 0) eqn:E0; [apply Nat.eqb_eq in E0|apply Nat.eqb_neq in E0].
  - exists 1%Q. do 2 (split; [done|]).
    split; (split; [intros _; lia|intros _; by vm_compute]).
  - eexists. do 2 (split; [done|]).
    set (n := length s1 `max` length s2) in *.
    pose proof (num_pos n E0) as Hn.
    rewrite !Qle_div_iff by done.
    unfold num, Qle, Qmult, Qminus, Qplus, Qopp. simpl. split; lia.
Qed.

Section TokenMatches.

Variable toLowerCase : jsstring → jsstring.


End TokenMatches.

(** ** The bars of the distribution *)

(** X8.  The percentage of each of the five bars of the distribution is
    defined and lies between 0 and 100; it is 0 exactly when the bucket is
    empty and 100 exactly when the bucket holds every line. *)
Theorem bucket_percentages_bounds (content1 content2 : jsstring) :
  ∃ matchData ranges,
    calculateLineMatchData content1 content2 = Some matchData ∧
    calculateSimilarityDistribution content1 content2 = Some ranges ∧
    ∀ b, bucketCount b ranges ≤ totalLines matchData ∧
      ∃ p, bucketPercentage (bucketCount b ranges) (totalLines matchData)
             = Some p ∧
           (0 <= p)%Q ∧ (p <= 100)%Q ∧
           ((p == 0)%Q ↔ bucketCount b ranges = 0) ∧
           ((p == 100)%Q ↔ bucketCount b ranges = totalLines matchData).
Proof.
  destruct (calculateLineMatchData_records content1 content2)
    as (matchData & Heq & Hlen & _).
  assert (totalLines matchData ≠ 0) as Hne.
  { unfold totalLines. rewrite Hlen, splitLines_length. lia. }
  pose proof (distribution_sum matchData) as Hsum. simpl in Hsum.
  fold (totalLines matchData) in Hsum.
  exists matchData, (distributionOf matchData).
  split; [done|].
  split; [unfold calculateSimilarityDistribution; by rewrite Heq|].
  intros b.
  assert (bucketCount b (distributionOf matchData) ≤ totalLines matchData)
    as Hle by (destruct b; simpl; lia).
  split; [done|].
  unfold bucketPercentage. rewrite divide_num by done. simpl.
  eexists; split; [done|].
  pose proof (num_pos _ Hne) as Hpos.
  destruct (ratio_bounds (num (bucketCount b (distributionOf matchData)))
              (num (totalLines matchData)))
    as [Hlow Hhigh]; [apply num_nonneg|by apply num_le|done|].
  assert ((num (bucketCount b (distributionOf matchData))
           / num (totalLines matchData) == 0)%Q ↔
          bucketCount b (distributionOf matchData) = 0) as Hzero.
  { rewrite Qdiv_eq_iff, Qmult_0_l by done.
    change 0%Q with (num 0). apply num_eq. }
  assert ((num (bucketCount b (distributionOf matchData))
           / num (totalLines matchData) == 1)%Q ↔
          bucketCount b (distributionOf matchData) = totalLines matchData)
    as Hone.
  { rewrite Qdiv_eq_iff, Qmult_1_l by done. apply num_eq. }
  revert Hlow Hhigh Hzero Hone.
  generalize (num (bucketCount b (distributionOf matchData))
              / num (totalLines matchData))%Q.
  intros x Hlow Hhigh Hzero Hone.
  split; [lra|]. split; [lra|]. rewrite <-Hzero, <-Hone.
  split; split; intros H; lra.
Qed.
